(** * Subscription lifecycle of the Angular / Apollo demo components

    A shallow embedding of the TypeScript sources

      - [src/app/planet/planet.component.ts]           (PlanetComponent)
      - [src/app/hero-detail/hero-detail.component.ts] (HeroDetailComponent)
      - [planet-repository.service.ts]                 (PlanetRepositoryService)
      - [hero-repository.service.ts]                   (HeroRepositoryService)
      - [model.ts]                                     (Hero, Planet)

    together with the part of the RxJS 7 semantics the components rely on
    ([filter], [map], [tap], [take], [takeUntil], [Subject], [subscribe]).
    Objects that JavaScript allocates on the heap and shares by reference
    (subjects, subscriptions, component instances) live in finite maps of
    a [World]; everything the environment can do to a running application
    (Angular creating and destroying components, a click on the add button,
    the Apollo client pushing a result) is an [event].

    The [$] that ends some field names of the sources is not a letter of
    Rocq identifiers and is written ['] : [destroy'] is [destroy$]. *)

From stdpp Require Import gmap strings list fin_maps.

Set Default Proof Using "Type".

(** ** JavaScript values *)

(** A value of TypeScript type [T | null | undefined] as it exists at run
    time.  A type assertion [x as T] does nothing at run time, so a value
    asserted to be a [T] is still one of these three. *)
Inductive nullable (T : Type) : Type :=
| JsNull
| JsUndefined
| JsValue (v : T).
Arguments JsNull {T}.
Arguments JsUndefined {T}.
Arguments JsValue {T} v.

(** [x != null]: the loose comparison, false for both null and undefined. *)
Definition loose_ne_null {T} (x : nullable T) : bool :=
  match x with
  | JsNull | JsUndefined => false
  | JsValue _ => true
  end.

(** [x !== null]: the strict comparison, false for null only. *)
Definition strict_ne_null {T} (x : nullable T) : bool :=
  match x with
  | JsNull => false
  | JsUndefined | JsValue _ => true
  end.

(** ** model.ts *)

Module Planet.
Record t : Type := mk { name : string; avgTemp : string; habitable : string }.
End Planet.

Module Hero.
Inductive heroType : Type := GoodGuy | BadGuy.
#[local] Unset Elimination Schemes.
Inductive t : Type :=
  mk (name : string) (type : heroType) (planet : Planet.t)
     (allies : option (list t)).
#[local] Set Elimination Schemes.
End Hero.

(** ** RxJS: notifications, operators, pipes *)

(** The three kinds of notification a push source sends to a subscriber. *)
Inductive notification (T : Type) : Type :=
| Next (v : T)
| Error (err : string)
| Complete.
Arguments Next {T} v.
Arguments Error {T} err.
Arguments Complete {T}.

Definition is_terminal {T} (n : notification T) : bool :=
  match n with
  | Next _ => false
  | Error _ | Complete => true
  end.

Section Operators.
(** [Effect]: what a callback passed to an operator or to [subscribe] does
    to the object it closes over (an assignment to a field of [this]). *)
Context {Effect : Type}.

(** The pipeable operators the sources import from 'rxjs'.  A [takeUntil]
    refers to its notifier by heap location. *)
Inductive OperatorFunction : Type -> Type -> Type :=
| filter {T} (predicate : T -> bool) : OperatorFunction T T
| map {T R} (project : T -> R) : OperatorFunction T R
| tap {T} (next : T -> Effect) : OperatorFunction T T
| take {T} (count : nat) : OperatorFunction T T
| takeUntil {T} (notifier : nat) : OperatorFunction T T.

(** What one operator does with a value pushed by its source.  [seen] is
    the operator's private counter (used by [take] only); the result lists
    what is sent downstream and the effects of the callbacks that ran.

    take: [if (++seen <= count) { subscriber.next(value);
             if (count <= seen) subscriber.complete(); }] *)
Definition operator_next {T R} (op : OperatorFunction T R) (seen : nat)
  : T -> nat * list (notification R) * list Effect :=
  match op in OperatorFunction T R
        return T -> nat * list (notification R) * list Effect with
  | filter predicate => fun v =>
      (seen, if predicate v then [Next v] else [], [])
  | map project => fun v => (seen, [Next (project v)], [])
  | tap next => fun v => (seen, [Next v], [next v])
  | take count => fun v =>
      let seen := S seen in
      if seen <=? count
      then (seen, Next v :: (if count <=? seen then [Complete] else []), [])
      else (seen, [], [])
  | takeUntil _ => fun v => (seen, [Next v], [])
  end.

(** Every operator used here forwards [error] and [complete]. *)
Definition operator_step {T R} (op : OperatorFunction T R) (seen : nat)
    (n : notification T) : nat * list (notification R) * list Effect :=
  match n with
  | Next v => operator_next op seen v
  | Error err => (seen, [Error err], [])
  | Complete => (seen, [Complete], [])
  end.

(** A subscriber that has sent [error] or [complete] is stopped: what its
    source sends afterwards is dropped. *)
Fixpoint operator_feed {T R} (op : OperatorFunction T R) (seen : nat)
    (ns : list (notification T)) : nat * list (notification R) * list Effect :=
  match ns with
  | [] => (seen, [], [])
  | n :: ns =>
      let '(seen, out, eff) := operator_step op seen n in
      if existsb is_terminal out then (seen, out, eff)
      else
        let '(seen, out', eff') := operator_feed op seen ns in
        (seen, out ++ out', eff ++ eff')
  end.

(** [source.pipe(op1, op2, ...)]: the operators from the source down to the
    subscriber. *)
Inductive Pipe : Type -> Type -> Type :=
| pipe_end {T} : Pipe T T
| pipe_op {T R S} (op : OperatorFunction T R) (rest : Pipe R S) : Pipe T S.

Fixpoint pipe_app {T R S} (p : Pipe T R) : Pipe R S -> Pipe T S :=
  match p in Pipe T R return Pipe R S -> Pipe T S with
  | pipe_end => fun q => q
  | pipe_op op rest => fun q => pipe_op op (pipe_app rest q)
  end.

Fixpoint pipe_length {T R} (p : Pipe T R) : nat :=
  match p with
  | pipe_end => 0
  | pipe_op _ rest => S (pipe_length rest)
  end.

(** Notifications entering at the top of a pipe; [seen] holds one counter
    per operator. *)
Fixpoint pipe_feed {T R} (p : Pipe T R) (seen : list nat)
  : list (notification T) -> list nat * list (notification R) * list Effect :=
  match p in Pipe T R
        return list (notification T)
               -> list nat * list (notification R) * list Effect with
  | pipe_end => fun ns => (seen, ns, [])
  | pipe_op op rest => fun ns =>
      let '(s, mid, eff) := operator_feed op (hd 0 seen) ns in
      let '(ss, out, eff') := pipe_feed rest (tl seen) mid in
      (s :: ss, out, eff ++ eff')
  end.

(** Does this operator listen to the subject at [d]? *)
Definition listens_to {T R} (op : OperatorFunction T R) (d : nat) : bool :=
  match op with
  | takeUntil notifier => bool_decide (notifier = d)
  | _ => false
  end.

(** The subject at [d] emits: the first [takeUntil(d)] of the pipe calls
    [subscriber.complete()] on what follows it. *)
Fixpoint pipe_signal {T R} (p : Pipe T R) (d : nat) (seen : list nat)
  : list nat * list (notification R) * list Effect :=
  match p in Pipe T R
        return list nat * list (notification R) * list Effect with
  | pipe_end => (seen, [], [])
  | pipe_op op rest =>
      if listens_to op d then
        let '(ss, out, eff) := pipe_feed rest (tl seen) [Complete] in
        (hd 0 seen :: ss, out, eff)
      else
        let '(ss, out, eff) := pipe_signal rest d (tl seen) in
        (hd 0 seen :: ss, out, eff)
  end.

(** The subjects a subscription to the pipe registers with. *)
Fixpoint pipe_notifiers {T R} (p : Pipe T R) : list nat :=
  match p with
  | pipe_end => []
  | pipe_op op rest =>
      match op with
      | takeUntil notifier => notifier :: pipe_notifiers rest
      | _ => pipe_notifiers rest
      end
  end.

(** [take(0)] is [EMPTY]: a pipe that contains it completes as soon as it
    is subscribed. *)
Fixpoint pipe_empty {T R} (p : Pipe T R) : bool :=
  match p with
  | pipe_end => false
  | pipe_op op rest =>
      match op with
      | take 0 => true
      | _ => pipe_empty rest
      end
  end.

(** *** Observers and subscribers *)

(** The argument of [subscribe]: each handler may be missing. *)
Record Observer (T : Type) : Type := mkObserver {
  next : option (T -> Effect);
  error : option (string -> Effect);
  complete : option Effect
}.
Arguments next {T} _.
Arguments error {T} _.
Arguments complete {T} _.

(** [.subscribe()] with no argument. *)
Definition bare {T} : Observer T :=
  {| next := None; error := None; complete := None |}.

(** The state of the subscriber chain that [subscribe] builds.  [received]
    records the values handed to the observer's [next], in order; it is
    kept whether or not the observer has a handler. *)
Record Subscriber (T : Type) : Type := mkSubscriber {
  closed : bool;
  seen : list nat;
  received : list T
}.
Arguments mkSubscriber {T} _ _ _.
Arguments closed {T} _.
Arguments seen {T} _.
Arguments received {T} _.

(** One notification reaching the observer.  The result carries the effects
    of the handler that ran and the errors no handler took, which RxJS
    passes to [reportUnhandledError]. *)
Definition observe {T} (o : Observer T) (s : Subscriber T) (n : notification T)
  : Subscriber T * list Effect * list string :=
  if closed s then (s, [], [])
  else
    match n with
    | Next v =>
        (mkSubscriber false (seen s) (received s ++ [v]),
         match next o with Some f => [f v] | None => [] end, [])
    | Error err =>
        (mkSubscriber true (seen s) (received s),
         match error o with Some f => [f err] | None => [] end,
         match error o with Some _ => [] | None => [err] end)
    | Complete =>
        (mkSubscriber true (seen s) (received s),
         match complete o with Some e => [e] | None => [] end, [])
    end.

Fixpoint deliver {T} (o : Observer T) (s : Subscriber T)
    (out : list (notification T)) : Subscriber T * list Effect * list string :=
  match out with
  | [] => (s, [], [])
  | n :: out =>
      let '(s, eff, unhandled) := observe o s n in
      let '(s, eff', unhandled') := deliver o s out in
      (s, eff ++ eff', unhandled ++ unhandled')
  end.

(** [observable.subscribe(observer)]: the state of the new chain, and what
    the observer is told at once. *)
Definition Subscriber_new {T R} (p : Pipe T R) (o : Observer R)
  : Subscriber R * list Effect * list string :=
  let s := mkSubscriber false (replicate (pipe_length p) 0) [] in
  if pipe_empty p then deliver o s [Complete] else (s, [], []).

(** The source of the pipe sends [n]. *)
Definition Subscriber_push {T R} (p : Pipe T R) (o : Observer R)
    (s : Subscriber R) (n : notification T)
  : Subscriber R * list Effect * list string :=
  if closed s then (s, [], [])
  else
    let '(seen, out, eff) := pipe_feed p (seen s) [n] in
    let '(s, eff', unhandled) :=
      deliver o (mkSubscriber false seen (received s)) out in
    (s, eff ++ eff', unhandled).

(** The subject at [d] emits. *)
Definition Subscriber_signal {T R} (p : Pipe T R) (o : Observer R) (d : nat)
    (s : Subscriber R) : Subscriber R * list Effect * list string :=
  if closed s then (s, [], [])
  else
    let '(seen, out, eff) := pipe_signal p d (seen s) in
    let '(s, eff', unhandled) :=
      deliver o (mkSubscriber false seen (received s)) out in
    (s, eff ++ eff', unhandled).

End Operators.
Arguments OperatorFunction : clear implicits.
Arguments Pipe : clear implicits.
Arguments Observer : clear implicits.
Arguments mkObserver {Effect T} _ _ _.
Arguments next {Effect T} _.
Arguments error {Effect T} _.
Arguments complete {Effect T} _.
Arguments mkSubscriber {T} _ _ _.
Arguments closed {T} _.
Arguments seen {T} _.
Arguments received {T} _.

Notation "'pipe[' x ; .. ; y ']'" := (pipe_op x .. (pipe_op y pipe_end) ..)
  (at level 0, x at level 99, y at level 99).

(** *** Observables *)

(** The external push sources the services obtain from Angular and from
    the Apollo client.  They are opaque collaborators: what they emit, and
    when, is decided by the environment. *)
Inductive variable : Type :=
| StringVariable (s : string)
| PlanetVariable (p : Planet.t).

Inductive Source : Type :=
| HttpGet (url : string)
| WatchQuery (query : string) (variables : list (string * variable))
| Mutate (mutation : string) (variables : list (string * variable))
         (refetchQueries : list string)
| RouteParams.

(** A lazily started push source of raw values [R], seen through a pipe
    that turns them into [T]. *)
Record Observable (Effect R T : Type) : Type := mkObservable {
  source : Source;
  operators : Pipe Effect R T
}.
Arguments mkObservable {Effect R T} _ _.
Arguments source {Effect R T} _.
Arguments operators {Effect R T} _.

(** [observable.pipe(ops)] *)
Definition pipe {Effect R T S} (o : Observable Effect R T)
    (ops : Pipe Effect T S) : Observable Effect R S :=
  mkObservable (source o) (pipe_app (operators o) ops).

(** [ApolloQueryResult<T>] and [MutationResult<T>]: the repositories read
    the [data] field only. *)
Record ApolloResult (T : Type) : Type := mkResult { data : nullable T }.
Arguments mkResult {T} _.
Arguments data {T} _.

(** Template literal interpolation [`${x}`]. *)
Definition template_string (x : nullable string) : string :=
  match x with
  | JsNull => "null"
  | JsUndefined => "undefined"
  | JsValue s => s
  end.

(** ** hero-repository.service.ts *)

Module HeroRepositoryService.
Section Service.
Context {Effect : Type}.

Definition endpoint : string := "https://somefictiousendpoint.com/heros".

Definition GET_HEROS_BY_CATEGORY : string :=
  "herosByHeroType(heroType:String) { name heroType }".

Definition getHero (name : nullable string)
  : option (Observable Effect Hero.t Hero.t) :=
  Some (mkObservable (HttpGet (endpoint ++ "/" ++ template_string name)) pipe_end).

Definition getHerosByType (heroType : string)
  : option (Observable Effect (ApolloResult (list Hero.t)) (nullable (list Hero.t))) :=
  Some (pipe
    (mkObservable
       (WatchQuery GET_HEROS_BY_CATEGORY [("heroType", StringVariable heroType)])
       pipe_end)
    pipe[ filter (fun result => strict_ne_null (data result));
          map (fun result => data result) ]).

End Service.
End HeroRepositoryService.

(** ** planet-repository.service.ts (the Apollo version, the one that has
    [addPlanet]) *)

Module PlanetRepositoryService.
Section Service.
Context {Effect : Type}.

Definition GET_ALL_PLANETS : string := "planets() { name avgTemp habitable }".

Definition ADD_PLANET : string :=
  "mutation ($planet:Plant) { addPlanet(planet: $planet) { name avgTemp habitable } }".

Definition getAllPlanets
  : Observable Effect (ApolloResult (list Planet.t)) (nullable (list Planet.t)) :=
  pipe
    (mkObservable (WatchQuery GET_ALL_PLANETS []) pipe_end)
    pipe[ filter (fun response => loose_ne_null (data response));
          map (fun response => data response) ].

Definition addPlanet (planet : Planet.t)
  : Observable Effect (ApolloResult Planet.t) (nullable Planet.t) :=
  pipe
    (mkObservable
       (Mutate ADD_PLANET [("planet", PlanetVariable planet)] [GET_ALL_PLANETS])
       pipe_end)
    pipe[ filter (fun result => loose_ne_null (data result));
          map (fun result => data result) ].

End Service.
End PlanetRepositoryService.

(** ** src/app/planet-repository.service.ts (the HttpClient version) *)

Module PlanetRepositoryServiceHttp.
Definition getAllPlanets {Effect : Type}
  : Observable Effect (list Planet.t) (list Planet.t) :=
  mkObservable (HttpGet "someurl") pipe_end.
End PlanetRepositoryServiceHttp.

(** ** The heap *)

(** [Subject<void>]: the list of registered observers (subscriptions, by
    heap location).  The sources call nothing but [next] on their subjects,
    never [complete], [error] or [unsubscribe], so the flags those methods
    set are left out.  [nexts] counts the calls of [next]; it is not a
    field of the RxJS class. *)
Module Subject.
Record t : Type := mk {
  observers : list nat;
  nexts : nat
}.
Definition new : t := mk [] 0.
Definition add (sid : nat) (sj : t) : t := mk (observers sj ++ [sid]) (nexts sj).
Definition remove (sid : nat) (sj : t) : t :=
  mk (List.filter (fun x => negb (x =? sid)) (observers sj)) (nexts sj).
Definition called (sj : t) : t := mk (observers sj) (S (nexts sj)).
End Subject.

(** [ActivatedRoute.params] emits objects indexed by parameter name, which
    the component reads as [any]: a key holds null, undefined or a string,
    and a key that is missing reads as undefined. *)
Definition Params : Type := gmap string (nullable string).
Definition param_get (param : Params) (key : string) : nullable string :=
  default JsUndefined (param !! key).

(** The assignments to fields of [this] that the components make from
    inside operator callbacks. *)
Inductive Assignment : Type :=
| assign_planets (planets : nullable (list Planet.t))
| assign_hero' (hero : option (Observable Empty_set Hero.t Hero.t)).

(** The instance fields of PlanetComponent. *)
Module PlanetFields.
Record t : Type := mk {
  destroy' : nat;
  planets' : option (Observable Assignment (ApolloResult (list Planet.t))
                                (nullable (list Planet.t)))
}.
End PlanetFields.

(** The instance fields of HeroDetailComponent. *)
Module HeroDetailFields.
Record t : Type := mk {
  destroy' : nat;
  heroId' : option (Observable Assignment Params (nullable string));
  hero' : option (Observable Empty_set Hero.t Hero.t);
  planets : nullable (list Planet.t)
}.
End HeroDetailFields.

Inductive Component : Type :=
| PlanetComponentInstance (c : PlanetFields.t)
| HeroDetailComponentInstance (c : HeroDetailFields.t).

Definition destroy_of (c : Component) : nat :=
  match c with
  | PlanetComponentInstance c => PlanetFields.destroy' c
  | HeroDetailComponentInstance c => HeroDetailFields.destroy' c
  end.

Definition assign (a : Assignment) (c : Component) : Component :=
  match c, a with
  | HeroDetailComponentInstance c, assign_planets planets =>
      HeroDetailComponentInstance
        (HeroDetailFields.mk (HeroDetailFields.destroy' c)
           (HeroDetailFields.heroId' c) (HeroDetailFields.hero' c) planets)
  | HeroDetailComponentInstance c, assign_hero' hero =>
      HeroDetailComponentInstance
        (HeroDetailFields.mk (HeroDetailFields.destroy' c)
           (HeroDetailFields.heroId' c) hero (HeroDetailFields.planets c))
  | PlanetComponentInstance _, _ => c
  end.

(** What [subscribe] returns and the subject keeps: the owner (the
    component whose method subscribed), the operators, the observer and
    the state of the chain. *)
Record Subscribed (R T : Type) : Type := mkSubscribed {
  owner : nat;
  chain : Pipe Assignment R T;
  observer : Observer Assignment T;
  state : Subscriber T
}.
Arguments mkSubscribed {R T} _ _ _ _.
Arguments owner {R T} _.
Arguments chain {R T} _.
Arguments observer {R T} _.
Arguments state {R T} _.

(** The two kinds of subscription the components make, by what their
    source emits. *)
Inductive Subscription : Type :=
| MutationSubscription
    (s : Subscribed (ApolloResult Planet.t) (nullable Planet.t))
| QuerySubscription
    (s : Subscribed (ApolloResult (list Planet.t)) (nullable (list Planet.t))).

Record World : Type := mkWorld {
  subjects : gmap nat Subject.t;
  components : gmap nat Component;
  subscriptions : gmap nat Subscription;
  destroyed : gset nat;
  unhandled : list string
}.

(** [subjects]: the heap of [Subject] objects; [components]: the component
    instances Angular has created; [subscriptions]: the subscriber chains
    made by [subscribe]; [destroyed]: the components Angular has destroyed;
    [unhandled]: the errors RxJS handed to [reportUnhandledError]. *)

Definition with_state {R T} (s : Subscribed R T) (st : Subscriber T)
  : Subscribed R T :=
  mkSubscribed (owner s) (chain s) (observer s) st.

Definition Subscription_owner (sub : Subscription) : nat :=
  match sub with
  | MutationSubscription s => owner s
  | QuerySubscription s => owner s
  end.

Definition Subscription_closed (sub : Subscription) : bool :=
  match sub with
  | MutationSubscription s => closed (state s)
  | QuerySubscription s => closed (state s)
  end.

Definition Subscription_notifiers (sub : Subscription) : list nat :=
  match sub with
  | MutationSubscription s => pipe_notifiers (chain s)
  | QuerySubscription s => pipe_notifiers (chain s)
  end.

Definition Subscription_signal (d : nat) (sub : Subscription)
  : Subscription * list Assignment * list string :=
  match sub with
  | MutationSubscription s =>
      let '(st, eff, errs) :=
        Subscriber_signal (chain s) (observer s) d (state s) in
      (MutationSubscription (with_state s st), eff, errs)
  | QuerySubscription s =>
      let '(st, eff, errs) :=
        Subscriber_signal (chain s) (observer s) d (state s) in
      (QuerySubscription (with_state s st), eff, errs)
  end.

(** Tearing a chain down removes it from the subjects it registered with. *)
Definition finalize (sid : nat) (w : World) : World :=
  mkWorld (Subject.remove sid <$> subjects w) (components w) (subscriptions w)
          (destroyed w) (unhandled w).

(** The outcome of running a chain: its new state is stored, the callbacks'
    assignments are made on the owner, unhandled errors are reported, and
    a chain that closed is torn down. *)
Definition settle (sid : nat) (sub : Subscription) (eff : list Assignment)
    (errs : list string) (w : World) : World :=
  let w :=
    mkWorld (subjects w)
            (alter (fun c => foldl (fun c a => assign a c) c eff)
                   (Subscription_owner sub) (components w))
            (<[sid := sub]> (subscriptions w))
            (destroyed w) (unhandled w ++ errs) in
  if Subscription_closed sub then finalize sid w else w.

Definition notify (d sid : nat) (w : World) : World :=
  match subscriptions w !! sid with
  | Some sub =>
      let '(sub, eff, errs) := Subscription_signal d sub in
      settle sid sub eff errs w
  | None => w
  end.

(** [subject.next()]: every observer registered when the call starts is
    notified, in order. *)
Definition Subject_next (d : nat) (w : World) : World :=
  match subjects w !! d with
  | Some sj =>
      foldl (fun w sid => notify d sid w)
            (mkWorld (<[d := Subject.called sj]> (subjects w)) (components w)
                     (subscriptions w) (destroyed w) (unhandled w))
            (Subject.observers sj)
  | None => w
  end.

Definition register (sid : nat) (ds : list nat) (w : World) : World :=
  mkWorld (foldr (fun d m => alter (Subject.add sid) d m) (subjects w) ds)
          (components w) (subscriptions w) (destroyed w) (unhandled w).

(** [observable.subscribe(observer)], called from a method of component
    [this]: each [takeUntil] subscribes to its notifier, then the chain
    starts. *)
Definition subscribe {R T} (inj : Subscribed R T -> Subscription) (this : nat)
    (o : Observable Assignment R T) (obs : Observer Assignment T) (w : World)
  : World :=
  let sid := fresh (dom (subscriptions w)) in
  let '(st, eff, errs) := Subscriber_new (operators o) obs in
  settle sid (inj (mkSubscribed this (operators o) obs st)) eff errs
         (register sid (pipe_notifiers (operators o)) w).

(** The Apollo client pushes a notification into the source of a chain. *)
Definition push_mutation (sid : nat) (n : notification (ApolloResult Planet.t))
    (w : World) : World :=
  match subscriptions w !! sid with
  | Some (MutationSubscription s) =>
      let '(st, eff, errs) :=
        Subscriber_push (chain s) (observer s) (state s) n in
      settle sid (MutationSubscription (with_state s st)) eff errs w
  | _ => w
  end.

Definition push_query (sid : nat)
    (n : notification (ApolloResult (list Planet.t))) (w : World) : World :=
  match subscriptions w !! sid with
  | Some (QuerySubscription s) =>
      let '(st, eff, errs) :=
        Subscriber_push (chain s) (observer s) (state s) n in
      settle sid (QuerySubscription (with_state s st)) eff errs w
  | _ => w
  end.

Definition set_component (o : nat) (c : Component) (w : World) : World :=
  mkWorld (subjects w) (<[o := c]> (components w)) (subscriptions w)
          (destroyed w) (unhandled w).

(** [new Subject<void>()] *)
Definition new_Subject (w : World) : nat * World :=
  let d := fresh (dom (subjects w)) in
  (d, mkWorld (<[d := Subject.new]> (subjects w)) (components w)
              (subscriptions w) (destroyed w) (unhandled w)).

(** ** src/app/planet/planet.component.ts *)

Module PlanetComponent.

(** The field initialisers and the (empty) constructor. *)
Definition new (w : World) : World :=
  let '(destroy', w) := new_Subject w in
  set_component (fresh (dom (components w)))
    (PlanetComponentInstance (PlanetFields.mk destroy' None)) w.

Definition ngOnDestroy (this : nat) (w : World) : World :=
  match components w !! this with
  | Some (PlanetComponentInstance c) => Subject_next (PlanetFields.destroy' c) w
  | _ => w
  end.

Definition ngOnInit (this : nat) (w : World) : World :=
  match components w !! this with
  | Some (PlanetComponentInstance c) =>
      set_component this
        (PlanetComponentInstance
           (PlanetFields.mk (PlanetFields.destroy' c)
              (Some PlanetRepositoryService.getAllPlanets))) w
  | _ => w
  end.

Definition addPlanet (this : nat) (w : World) : World :=
  match components w !! this with
  | Some (PlanetComponentInstance c) =>
      let planet := Planet.mk "Earth" "65" "yes" in
      subscribe MutationSubscription this
        (pipe (PlanetRepositoryService.addPlanet planet)
              pipe[ take 1; takeUntil (PlanetFields.destroy' c) ])
        bare w
  | _ => w
  end.

End PlanetComponent.

(** ** src/app/hero-detail/hero-detail.component.ts *)

Module HeroDetailComponent.

Definition new (w : World) : World :=
  let '(destroy', w) := new_Subject w in
  set_component (fresh (dom (components w)))
    (HeroDetailComponentInstance (HeroDetailFields.mk destroy' None None JsNull))
    w.

Definition ngOnDestroy (this : nat) (w : World) : World :=
  match components w !! this with
  | Some (HeroDetailComponentInstance c) =>
      Subject_next (HeroDetailFields.destroy' c) w
  | _ => w
  end.

Definition ngOnInit (this : nat) (w : World) : World :=
  match components w !! this with
  | Some (HeroDetailComponentInstance c) =>
      let w :=
        set_component this
          (HeroDetailComponentInstance
             (HeroDetailFields.mk (HeroDetailFields.destroy' c)
                (Some (pipe (mkObservable RouteParams pipe_end)
                   pipe[ filter (fun param =>
                                   strict_ne_null (param_get param "id"));
                         map (fun param => param_get param "id");
                         tap (fun heroId =>
                                assign_hero'
                                  (HeroRepositoryService.getHero heroId)) ]))
                (HeroDetailFields.hero' c) (HeroDetailFields.planets c))) w in
      subscribe QuerySubscription this
        (pipe PlanetRepositoryService.getAllPlanets
              pipe[ takeUntil (HeroDetailFields.destroy' c);
                    tap (fun planets => assign_planets planets) ])
        bare w
  | _ => w
  end.

End HeroDetailComponent.

(** ** The environment *)

Inductive event : Type :=
| CreatePlanetComponent
| CreateHeroDetailComponent
| Init (o : nat)
| Destroy (o : nat)
| ClickAddPlanet (o : nat)
| MutationEmits (sid : nat) (n : notification (ApolloResult Planet.t))
| QueryEmits (sid : nat) (n : notification (ApolloResult (list Planet.t))).

Definition mark_destroyed (o : nat) (w : World) : World :=
  mkWorld (subjects w) (components w) (subscriptions w)
          ({[o]} ∪ destroyed w) (unhandled w).

(** Angular creates a component, runs its [ngOnInit], and on destruction
    runs its [ngOnDestroy]; the add button of the planet view calls
    [addPlanet]; the Apollo client pushes into the chains it feeds. *)
Definition step (w : World) (e : event) : World :=
  match e with
  | CreatePlanetComponent => PlanetComponent.new w
  | CreateHeroDetailComponent => HeroDetailComponent.new w
  | Init o =>
      match components w !! o with
      | Some (PlanetComponentInstance _) => PlanetComponent.ngOnInit o w
      | Some (HeroDetailComponentInstance _) => HeroDetailComponent.ngOnInit o w
      | None => w
      end
  | Destroy o =>
      match components w !! o with
      | Some (PlanetComponentInstance _) =>
          PlanetComponent.ngOnDestroy o (mark_destroyed o w)
      | Some (HeroDetailComponentInstance _) =>
          HeroDetailComponent.ngOnDestroy o (mark_destroyed o w)
      | None => w
      end
  | ClickAddPlanet o => PlanetComponent.addPlanet o w
  | MutationEmits sid n => push_mutation sid n w
  | QueryEmits sid n => push_query sid n w
  end.

Definition run (w : World) (es : list event) : World := foldl step w es.

Definition empty_world : World := mkWorld ∅ ∅ ∅ ∅ [].

Definition reachable (w : World) : Prop := ∃ es, w = run empty_world es.

(** * The vocabulary of the properties *)

(** The values a chain has handed to its observer, whatever its kind. *)
Inductive delivered : Type :=
| DeliveredPlanet (v : nullable Planet.t)
| DeliveredPlanets (v : nullable (list Planet.t)).

Definition Subscription_received (sub : Subscription) : list delivered :=
  match sub with
  | MutationSubscription s => DeliveredPlanet <$> received (state s)
  | QuerySubscription s => DeliveredPlanets <$> received (state s)
  end.

Definition Subscription_bare (sub : Subscription) : Prop :=
  match sub with
  | MutationSubscription s => observer s = bare
  | QuerySubscription s => observer s = bare
  end.

(** [sub'] is a later state of the chain [sub]. *)
Definition later (sub sub' : Subscription) : Prop :=
  Subscription_owner sub' = Subscription_owner sub
  ∧ Subscription_notifiers sub' = Subscription_notifiers sub
  ∧ (Subscription_bare sub → Subscription_bare sub')
  ∧ (Subscription_closed sub = true → sub' = sub).

(** What holds of every world the components can build:
    - a subject's observers are open chains with a [takeUntil] on it;
    - an open chain is registered with the notifier of each of its
      [takeUntil]s;
    - a chain was subscribed without handlers, by a component that exists,
      and its only notifier is that component's [destroy$];
    - no two components have the same [destroy$];
    - every component's [destroy$] is allocated. *)
Record wf (w : World) : Prop := mk_wf {
  wf_observers : ∀ d sj sid,
    subjects w !! d = Some sj → sid ∈ Subject.observers sj →
    ∃ sub, subscriptions w !! sid = Some sub
           ∧ Subscription_closed sub = false
           ∧ d ∈ Subscription_notifiers sub;
  wf_registered : ∀ sid sub d,
    subscriptions w !! sid = Some sub → Subscription_closed sub = false →
    d ∈ Subscription_notifiers sub →
    ∃ sj, subjects w !! d = Some sj ∧ sid ∈ Subject.observers sj;
  wf_owner : ∀ sid sub,
    subscriptions w !! sid = Some sub →
    Subscription_bare sub
    ∧ ∃ c, components w !! Subscription_owner sub = Some c
           ∧ Subscription_notifiers sub = [destroy_of c];
  wf_private : ∀ o1 o2 c1 c2,
    components w !! o1 = Some c1 → components w !! o2 = Some c2 →
    destroy_of c1 = destroy_of c2 → o1 = o2;
  wf_allocated : ∀ o c,
    components w !! o = Some c → is_Some (subjects w !! destroy_of c)
}.

Definition earth : Planet.t := Planet.mk "Earth" "65" "yes".

(** The order of the source: the emission limit, then the guard. *)
Definition limit_then_signal {T} (d : nat) : Pipe Assignment T T :=
  pipe[ take 1; takeUntil d ].

(** The chain a subscription made by [addPlanet] runs: the operators of
    the repository's observable, then those of the component. *)
Definition addPlanet_chain (d : nat)
  : Pipe Assignment (ApolloResult Planet.t) (nullable Planet.t) :=
  pipe_app (operators (PlanetRepositoryService.addPlanet earth))
           (limit_then_signal d).

(** The chain a subscription made by HeroDetailComponent.ngOnInit runs. *)
Definition getAllPlanets_chain (d : nat)
  : Pipe Assignment (ApolloResult (list Planet.t)) (nullable (list Planet.t)) :=
  pipe_app (operators PlanetRepositoryService.getAllPlanets)
           pipe[ takeUntil d; tap (fun planets => assign_planets planets) ].

(** The events that neither destroy the component [this] nor push into the
    chain [sid]. *)
Definition quiet (this sid : nat) (e : event) : bool :=
  match e with
  | Destroy o => negb (o =? this)
  | MutationEmits s _ | QueryEmits s _ => negb (s =? sid)
  | _ => true
  end.

(** The events other than a (second) run of [ngOnInit] on [this]. *)
Definition not_init (this : nat) (e : event) : bool :=
  match e with
  | Init o => negb (o =? this)
  | _ => true
  end.

(** Every chain of component [this] is closed. *)
Definition owner_closed (this : nat) (w : World) : Prop :=
  ∀ sid sub, subscriptions w !! sid = Some sub →
    Subscription_owner sub = this → Subscription_closed sub = true.

(** The world without the count of the calls of [next], which no code
    reads: the state of every subject (its observers), every component and
    every subscription, and the errors reported. *)
Definition forget_calls (w : World) : World :=
  mkWorld ((fun sj => Subject.mk (Subject.observers sj) 0) <$> subjects w)
          (components w) (subscriptions w) (destroyed w) (unhandled w).

(** [w'] keeps the subjects and components of [w]: every subject is still
    there and has been called at least as often, every component is still
    there with the same [destroy$]. *)
Definition extends (w w' : World) : Prop :=
  (∀ d sj, subjects w !! d = Some sj →
     ∃ sj', subjects w' !! d = Some sj'
            ∧ Subject.nexts sj ≤ Subject.nexts sj')
  ∧ (∀ o c, components w !! o = Some c →
       ∃ c', components w' !! o = Some c' ∧ destroy_of c' = destroy_of c).

(** The components Angular has destroyed have had their signal fired. *)
Definition fired (w : World) : Prop :=
  ∀ o, o ∈ destroyed w →
    ∃ c sj, components w !! o = Some c
            ∧ subjects w !! destroy_of c = Some sj
            ∧ 1 ≤ Subject.nexts sj.

(** What can happen to one chain: its source sends a notification, or a
    subject emits. *)
Inductive stimulus (R : Type) : Type :=
| FromSource (n : notification R)
| FromSubject (d : nat).
Arguments FromSource {R} n.
Arguments FromSubject {R} d.

Section Runs.
Context {Effect R T : Type}.

Definition Subscriber_step (p : Pipe Effect R T) (o : Observer Effect T)
    (acc : Subscriber T * list Effect * list string) (x : stimulus R)
  : Subscriber T * list Effect * list string :=
  let '(s, eff, errs) := acc in
  let '(s, eff', errs') :=
    match x with
    | FromSource n => Subscriber_push p o s n
    | FromSubject d => Subscriber_signal p o d s
    end in
  (s, eff ++ eff', errs ++ errs').

(** A chain from its subscription on: its final state, the effects of the
    callbacks that ran, in order, and the errors left unhandled. *)
Definition Subscriber_run (p : Pipe Effect R T) (o : Observer Effect T)
    (xs : list (stimulus R)) : Subscriber T * list Effect * list string :=
  foldl (Subscriber_step p o) (Subscriber_new p o) xs.

(** What the owner can observe of a run: whether the chain is closed, the
    values its observer received, the effects and the unhandled errors. *)
Definition outcome (r : Subscriber T * list Effect * list string)
  : bool * list T * list Effect * list string :=
  (closed r.1.1, received r.1.1, r.1.2, r.2).

End Runs.

(** The other order the specification considers: the guard, then the
    emission limit. *)
Definition signal_then_limit {T} (d : nat) : Pipe Assignment T T :=
  pipe[ takeUntil d; take 1 ].

Definition addPlanet_chain_swapped (d : nat)
  : Pipe Assignment (ApolloResult Planet.t) (nullable Planet.t) :=
  pipe_app (operators (PlanetRepositoryService.addPlanet earth))
           (signal_then_limit d).

(** The two orders, stimulus by stimulus: both chains are still as
    subscribed, or both are closed, and they have shown the owner the
    same. *)
Definition agree {T}
    (a b : Subscriber T * list Assignment * list string) : Prop :=
  outcome a = outcome b
  ∧ (closed a.1.1 = false →
     seen a.1.1 = [0; 0; 0; 0] ∧ seen b.1.1 = [0; 0; 0; 0]).

(** The values the observer of a chain has received once the source has
    sent [n]. *)
Definition received_after {Effect R T} (p : Pipe Effect R T)
    (o : Observer Effect T) (s : Subscriber T) (n : notification R) : list T :=
  received (Subscriber_push p o s n).1.1.



(** * The vocabulary of the further properties *)

(** What a chain made by one of the two components looks like at any
    time.  A mutation chain runs the operators of [addPlanet] under a bare
    observer; it has received at most one value, a real one, and none
    while it is open.  A query chain runs the operators of
    HeroDetailComponent.ngOnInit under a bare observer and has received
    real values only. *)
Definition component_chain (sub : Subscription) : Prop :=
  match sub with
  | MutationSubscription s =>
      (∃ d, chain s = addPlanet_chain d) ∧ observer s = bare
      ∧ Forall (fun v => loose_ne_null v = true) (received (state s))
      ∧ length (received (state s)) ≤ 1
      ∧ (closed (state s) = false →
         seen (state s) = [0; 0; 0; 0] ∧ received (state s) = [])
  | QuerySubscription s =>
      (∃ d, chain s = getAllPlanets_chain d) ∧ observer s = bare
      ∧ seen (state s) = [0; 0; 0; 0]
      ∧ Forall (fun v => loose_ne_null v = true) (received (state s))
  end.

Definition is_hero (c : Component) : bool :=
  match c with
  | PlanetComponentInstance _ => false
  | HeroDetailComponentInstance _ => true
  end.

Definition is_query (sub : Subscription) : bool :=
  match sub with
  | MutationSubscription _ => false
  | QuerySubscription _ => true
  end.

(** Every chain of the world is one of the two the components make, and
    belongs to a component of the class that makes it: a mutation chain to
    a PlanetComponent, a query chain to a HeroDetailComponent. *)
Definition shaped (w : World) : Prop :=
  ∀ sid sub, subscriptions w !! sid = Some sub →
    component_chain sub
    ∧ ∃ c, components w !! Subscription_owner sub = Some c
           ∧ is_hero c = is_query sub.

(** No HeroDetailComponent has [undefined] in its [planets] field. *)
Definition planets_defined (w : World) : Prop :=
  ∀ o c, components w !! o = Some (HeroDetailComponentInstance c) →
    HeroDetailFields.planets c ≠ JsUndefined.

(** How a source ends: with an error, or by completing. *)
Inductive ending : Type :=
| Fails (err : string)
| Completes.

Definition ending_notification {T} (x : ending) : notification T :=
  match x with
  | Fails err => Error err
  | Completes => Complete
  end.

(** The event in which the source of the chain [sub], stored at [sid],
    ends. *)
Definition ends (sid : nat) (sub : Subscription) (x : ending) : event :=
  match sub with
  | MutationSubscription _ => MutationEmits sid (ending_notification x)
  | QuerySubscription _ => QueryEmits sid (ending_notification x)
  end.

(** The assignment [this.planets = planets]. *)
Definition with_planets (c : HeroDetailFields.t)
    (planets : nullable (list Planet.t)) : HeroDetailFields.t :=
  HeroDetailFields.mk (HeroDetailFields.destroy' c) (HeroDetailFields.heroId' c)
                      (HeroDetailFields.hero' c) planets.

(** The chain of HeroDetailComponent.ngOnInit over the HttpClient version
    of [getAllPlanets], whose source emits the list itself. *)
Definition getAllPlanets_http_chain (d : nat)
  : Pipe Assignment (list Planet.t) (list Planet.t) :=
  pipe_app (operators PlanetRepositoryServiceHttp.getAllPlanets)
           pipe[ takeUntil d;
                 tap (fun planets => assign_planets (JsValue planets)) ].

(** * Properties of the operators *)

Section OperatorFacts.
Context {Effect : Type}.

Lemma pipe_feed_complete {T R} (p : Pipe Effect T R) (ss : list nat) :
  ∃ ss', pipe_feed p ss [Complete] = (ss', [Complete], []).
Proof.
  revert ss. induction p as [T|T R S op rest IH]; intros ss; cbn.
  - eauto.
  - destruct (IH (tl ss)) as [ss' ->]. eauto.
Qed.

(** A [takeUntil] whose notifier emits completes the chain, whatever stands
    before or after it in the pipe. *)
Lemma pipe_signal_listening {T R} (p : Pipe Effect T R) d (ss : list nat) :
  d ∈ pipe_notifiers p →
  ∃ ss', pipe_signal p d ss = (ss', [Complete], []).
Proof.
  revert ss. induction p as [T|T R S op rest IH]; intros ss Hd; cbn in *.
  - by apply elem_of_nil in Hd.
  - destruct op; cbn in *;
      try (destruct (IH (tl ss) Hd) as [ss' ->]; by eauto).
    case_bool_decide as Hn.
    + destruct (pipe_feed_complete rest (tl ss)) as [ss' ->]. eauto.
    + apply elem_of_cons in Hd as [->|Hd]; [done|].
      destruct (IH (tl ss) Hd) as [ss' ->]. eauto.
Qed.

(** A pipe without a [takeUntil] on the subject does not react to it. *)
Lemma pipe_signal_deaf {T R} (p : Pipe Effect T R) d (ss : list nat) :
  d ∉ pipe_notifiers p →
  ∃ ss', pipe_signal p d ss = (ss', [], []).
Proof.
  revert ss. induction p as [T|T R S op rest IH]; intros ss Hd; cbn in *.
  - eauto.
  - destruct op; cbn in *;
      try (destruct (IH (tl ss) Hd) as [ss' ->]; by eauto).
    apply not_elem_of_cons in Hd as [Hne Hd].
    rewrite bool_decide_eq_false_2 by done.
    destruct (IH (tl ss) Hd) as [ss' ->]. eauto.
Qed.

Lemma Subscriber_push_closed {T R} (p : Pipe Effect T R) o s n :
  closed s = true → Subscriber_push p o s n = (s, [], []).
Proof. unfold Subscriber_push. by intros ->. Qed.

Lemma Subscriber_signal_closed {T R} (p : Pipe Effect T R) o d s :
  closed s = true → Subscriber_signal p o d s = (s, [], []).
Proof. unfold Subscriber_signal. by intros ->. Qed.

(** The notifier of one of the chain's [takeUntil]s emits: the chain
    closes, and the observer receives no value. *)
Lemma Subscriber_signal_listening {T R} (p : Pipe Effect T R) o d s :
  closed s = false → d ∈ pipe_notifiers p →
  ∃ ss, Subscriber_signal p o d s =
          (mkSubscriber true ss (received s),
           match complete o with Some e => [e] | None => [] end, []).
Proof.
  intros Hs Hd. unfold Subscriber_signal. rewrite Hs.
  destruct (pipe_signal_listening p d (seen s) Hd) as [ss ->].
  exists ss. cbn. by rewrite app_nil_r.
Qed.

Lemma Subscriber_signal_deaf {T R} (p : Pipe Effect T R) o d s :
  closed s = false → d ∉ pipe_notifiers p →
  ∃ ss, Subscriber_signal p o d s =
          (mkSubscriber false ss (received s), [], []).
Proof.
  intros Hs Hd. unfold Subscriber_signal. rewrite Hs.
  destruct (pipe_signal_deaf p d (seen s) Hd) as [ss ->]. by exists ss.
Qed.

End OperatorFacts.

(** * Properties of the heap operations *)

Lemma with_state_id {R T} (s : Subscribed R T) : with_state s (state s) = s.
Proof. by destruct s. Qed.

Lemma Subscription_signal_closed d sub :
  Subscription_closed sub = true → Subscription_signal d sub = (sub, [], []).
Proof.
  destruct sub as [s|s]; cbn; intros Hc;
    by rewrite Subscriber_signal_closed, with_state_id.
Qed.

Lemma Subscription_signal_later d sub sub' eff errs :
  Subscription_signal d sub = (sub', eff, errs) → later sub sub'.
Proof.
  destruct (Subscription_closed sub) eqn:Hc.
  { rewrite Subscription_signal_closed by done. intros; simplify_eq.
    by repeat split. }
  destruct sub as [s|s]; cbn in *;
    destruct (Subscriber_signal _ _ _ _) as [[st e1] e2]; intros; simplify_eq;
    repeat split; cbn; congruence.
Qed.

(** The subject of its [takeUntil] emits: a chain without handlers closes,
    having run no callback and delivered nothing. *)
Lemma Subscription_signal_listening d sub :
  Subscription_closed sub = false → d ∈ Subscription_notifiers sub →
  Subscription_bare sub →
  ∃ sub', Subscription_signal d sub = (sub', [], [])
          ∧ Subscription_closed sub' = true
          ∧ Subscription_received sub' = Subscription_received sub.
Proof.
  destruct sub as [s|s]; cbn; intros Hc Hd Hb;
    destruct (Subscriber_signal_listening (chain s) (observer s) d (state s) Hc Hd)
      as [ss ->]; rewrite Hb; cbn; eauto.
Qed.

Lemma Subscription_signal_deaf d sub :
  d ∉ Subscription_notifiers sub →
  ∃ sub', Subscription_signal d sub = (sub', [], [])
          ∧ Subscription_closed sub' = Subscription_closed sub
          ∧ Subscription_received sub' = Subscription_received sub.
Proof.
  intros Hd. destruct (Subscription_closed sub) eqn:Hc.
  { rewrite Subscription_signal_closed by done. eauto. }
  destruct sub as [s|s]; cbn in *;
    destruct (Subscriber_signal_deaf (chain s) (observer s) d (state s) Hc Hd)
      as [ss ->]; cbn; eauto.
Qed.

Lemma settle_subscriptions sid sub eff errs w :
  subscriptions (settle sid sub eff errs w) = <[sid := sub]> (subscriptions w).
Proof. unfold settle. by destruct (Subscription_closed sub). Qed.

Lemma settle_components sid sub eff errs w :
  components (settle sid sub eff errs w) =
  alter (fun c => foldl (fun c a => assign a c) c eff)
        (Subscription_owner sub) (components w).
Proof. unfold settle. by destruct (Subscription_closed sub). Qed.

Lemma settle_subjects sid sub eff errs w :
  subjects (settle sid sub eff errs w) =
  if Subscription_closed sub then Subject.remove sid <$> subjects w
  else subjects w.
Proof. unfold settle. by destruct (Subscription_closed sub). Qed.

Lemma settle_destroyed sid sub eff errs w :
  destroyed (settle sid sub eff errs w) = destroyed w.
Proof. unfold settle. by destruct (Subscription_closed sub). Qed.

Lemma settle_unhandled sid sub eff errs w :
  unhandled (settle sid sub eff errs w) = unhandled w ++ errs.
Proof. unfold settle. by destruct (Subscription_closed sub). Qed.

Lemma assign_destroy_of a c : destroy_of (assign a c) = destroy_of c.
Proof. by destruct c, a. Qed.

Lemma assigns_destroy_of eff c :
  destroy_of (foldl (fun c a => assign a c) c eff) = destroy_of c.
Proof.
  revert c. induction eff as [|a eff IH]; intros c; cbn; [done|].
  by rewrite IH, assign_destroy_of.
Qed.

Lemma alter_nothing (o : nat) (m : gmap nat Component) :
  alter (fun c => foldl (fun c a => assign a c) c []) o m = m.
Proof.
  apply map_eq. intros i. rewrite lookup_alter. case_decide; [|done].
  subst. by destruct (m !! _).
Qed.

Lemma elem_of_remove sid x sj :
  x ∈ Subject.observers (Subject.remove sid sj) ↔
  x ∈ Subject.observers sj ∧ x ≠ sid.
Proof.
  unfold Subject.remove; cbn. rewrite !list_elem_of_In, filter_In, negb_true_iff.
  by rewrite Nat.eqb_neq.
Qed.

(** ** A closed chain never changes again *)

Lemma notify_frozen d sid' sid sub w :
  subscriptions w !! sid = Some sub → Subscription_closed sub = true →
  subscriptions (notify d sid' w) !! sid = Some sub.
Proof.
  intros Hs Hc. unfold notify.
  destruct (subscriptions w !! sid') as [sub0|] eqn:Hs'; [|done].
  destruct (Subscription_signal d sub0) as [[sub1 eff] errs] eqn:Hsig.
  rewrite settle_subscriptions.
  destruct (decide (sid' = sid)) as [->|Hne].
  - simplify_eq. rewrite Subscription_signal_closed in Hsig by done.
    simplify_eq. by rewrite lookup_insert_eq.
  - by rewrite lookup_insert_ne.
Qed.

Lemma notify_frame d sid' sid w :
  sid' ≠ sid →
  subscriptions (notify d sid' w) !! sid = subscriptions w !! sid.
Proof.
  intros Hne. unfold notify.
  destruct (subscriptions w !! sid') as [sub0|] eqn:Hs'; [|done].
  destruct (Subscription_signal d sub0) as [[sub1 eff] errs] eqn:Hsig.
  by rewrite settle_subscriptions, lookup_insert_ne.
Qed.

Lemma notify_all_frozen d l sid sub w :
  subscriptions w !! sid = Some sub → Subscription_closed sub = true →
  subscriptions (foldl (fun w sid => notify d sid w) w l) !! sid = Some sub.
Proof.
  revert w. induction l as [|x l IH]; intros w Hs Hc; cbn; [done|].
  apply IH; [|done]. by apply notify_frozen.
Qed.

Lemma notify_all_frame d l sid w :
  sid ∉ l →
  subscriptions (foldl (fun w sid => notify d sid w) w l) !! sid =
  subscriptions w !! sid.
Proof.
  revert w. induction l as [|x l IH]; intros w Hn; cbn; [done|].
  apply not_elem_of_cons in Hn as [Hne Hn].
  rewrite IH by done. by apply notify_frame.
Qed.

Lemma Subject_next_frozen d sid sub w :
  subscriptions w !! sid = Some sub → Subscription_closed sub = true →
  subscriptions (Subject_next d w) !! sid = Some sub.
Proof.
  intros Hs Hc. unfold Subject_next.
  destruct (subjects w !! d) as [sj|]; [|done].
  by apply notify_all_frozen.
Qed.

(** ** The invariant of the heap *)

Lemma lookup_assigned eff o o' (m : gmap nat Component) c' :
  alter (fun c => foldl (fun c a => assign a c) c eff) o m !! o' = Some c' →
  ∃ c, m !! o' = Some c ∧ destroy_of c' = destroy_of c.
Proof.
  rewrite lookup_alter. case_decide.
  - intros (c & Hc & ->)%fmap_Some. exists c. split; [by subst|].
    apply assigns_destroy_of.
  - intros Hc. by exists c'.
Qed.

Lemma lookup_assigned_inv eff o o' (m : gmap nat Component) c :
  m !! o' = Some c →
  ∃ c', alter (fun c => foldl (fun c a => assign a c) c eff) o m !! o' = Some c'
        ∧ destroy_of c' = destroy_of c.
Proof.
  intros Hc. rewrite lookup_alter. case_decide.
  - subst. rewrite Hc. cbn. eexists. split; [done|]. apply assigns_destroy_of.
  - by exists c.
Qed.

Lemma settle_subjects_lookup sid sub eff errs w d sj' :
  subjects (settle sid sub eff errs w) !! d = Some sj' →
  ∃ sj, subjects w !! d = Some sj
        ∧ Subject.nexts sj' = Subject.nexts sj
        ∧ ∀ x, x ∈ Subject.observers sj' ↔
               x ∈ Subject.observers sj
               ∧ (Subscription_closed sub = true → x ≠ sid).
Proof.
  rewrite settle_subjects. destruct (Subscription_closed sub).
  - rewrite lookup_fmap. intros (sj & Hsj & ->)%fmap_Some.
    exists sj. split_and!; [done..|]. intros x. rewrite elem_of_remove.
    intuition congruence.
  - intros Hsj. exists sj'. split_and!; [done..|]. intros x.
    intuition congruence.
Qed.

Lemma settle_subjects_lookup_inv sid sub eff errs w d sj :
  subjects w !! d = Some sj →
  ∃ sj', subjects (settle sid sub eff errs w) !! d = Some sj'
         ∧ Subject.nexts sj' = Subject.nexts sj
         ∧ ∀ x, x ∈ Subject.observers sj' ↔
                x ∈ Subject.observers sj
                ∧ (Subscription_closed sub = true → x ≠ sid).
Proof.
  intros Hsj. rewrite settle_subjects. destruct (Subscription_closed sub).
  - rewrite lookup_fmap, Hsj. cbn. eexists. split_and!; [done..|].
    intros x. rewrite elem_of_remove. intuition congruence.
  - exists sj. split_and!; [done..|]. intros x. intuition congruence.
Qed.

(** Storing a later state of a chain keeps the invariant. *)
Lemma settle_wf sid sub sub' eff errs w :
  wf w → subscriptions w !! sid = Some sub → later sub sub' →
  wf (settle sid sub' eff errs w).
Proof.
  intros Hwf Hsub (Hown & Hnot & Hbare & Hclosed). split.
  - intros d sj' x (sj & Hsj & _ & Hobs)%settle_subjects_lookup Hx.
    apply Hobs in Hx as [Hx Hne].
    destruct (wf_observers w Hwf d sj x Hsj Hx) as (s & Hs & Hopen & Hd).
    rewrite settle_subscriptions.
    destruct (decide (x = sid)) as [->|Hxs].
    + simplify_eq. rewrite lookup_insert_eq. exists sub'.
      split_and!; [done| |congruence].
      destruct (Subscription_closed sub') eqn:E; [|done]. by destruct Hne.
    + rewrite lookup_insert_ne by done. eauto.
  - intros x s d. rewrite settle_subscriptions.
    destruct (decide (x = sid)) as [->|Hxs].
    + rewrite lookup_insert_eq. intros ? Hopen Hd; simplify_eq.
      assert (Subscription_closed sub = false) as Hopen0.
      { destruct (Subscription_closed sub) eqn:E; [|done].
        rewrite (Hclosed eq_refl) in Hopen. congruence. }
      rewrite Hnot in Hd.
      destruct (wf_registered w Hwf sid sub d Hsub Hopen0 Hd) as (sj & Hsj & Hin).
      destruct (settle_subjects_lookup_inv sid s eff errs w d sj Hsj)
        as (sj' & Hsj' & _ & Hobs).
      exists sj'. split; [done|]. apply Hobs. split; [done|congruence].
    + rewrite lookup_insert_ne by done. intros Hs Hopen Hd.
      destruct (wf_registered w Hwf x s d Hs Hopen Hd) as (sj & Hsj & Hin).
      destruct (settle_subjects_lookup_inv sid sub' eff errs w d sj Hsj)
        as (sj' & Hsj' & _ & Hobs).
      exists sj'. split; [done|]. apply Hobs. by split.
  - intros x s. rewrite settle_subscriptions, settle_components.
    intros Hs.
    assert (∃ s0, subscriptions w !! x = Some s0
                  ∧ Subscription_owner s = Subscription_owner s0
                  ∧ Subscription_notifiers s = Subscription_notifiers s0
                  ∧ (Subscription_bare s0 → Subscription_bare s))
      as (s0 & Hs0 & Ho & Hn & Hb).
    { destruct (decide (x = sid)) as [->|Hxs].
      - rewrite lookup_insert_eq in Hs. simplify_eq. by exists sub.
      - rewrite lookup_insert_ne in Hs by done. by exists s. }
    destruct (wf_owner w Hwf x s0 Hs0) as (Hb0 & c & Hc & Hnc).
    split; [by auto|]. rewrite Ho.
    destruct (lookup_assigned_inv eff (Subscription_owner sub') _ _ c Hc)
      as (c' & Hc' & Hd).
    exists c'. split; [done|]. congruence.
  - intros o1 o2 c1 c2. rewrite settle_components.
    intros (c1' & H1 & E1)%lookup_assigned (c2' & H2 & E2)%lookup_assigned E.
    eapply (wf_private w Hwf); [done..|congruence].
  - intros o c. rewrite settle_components.
    intros (c0 & H0 & E0)%lookup_assigned. rewrite E0.
    destruct (wf_allocated w Hwf o c0 H0) as [sj Hsj].
    destruct (settle_subjects_lookup_inv sid sub' eff errs w _ sj Hsj)
      as (sj' & Hsj' & _). eauto.
Qed.

Lemma notify_wf d sid w : wf w → wf (notify d sid w).
Proof.
  intros Hwf. unfold notify.
  destruct (subscriptions w !! sid) as [sub|] eqn:Hs; [|done].
  destruct (Subscription_signal d sub) as [[sub' eff] errs] eqn:Hsig.
  eapply settle_wf; eauto using Subscription_signal_later.
Qed.

Lemma notify_all_wf d l w :
  wf w → wf (foldl (fun w sid => notify d sid w) w l).
Proof.
  revert w. induction l as [|x l IH]; intros w Hwf; cbn; [done|].
  by apply IH, notify_wf.
Qed.

Lemma called_wf d sj w :
  wf w → subjects w !! d = Some sj →
  wf (mkWorld (<[d := Subject.called sj]> (subjects w)) (components w)
              (subscriptions w) (destroyed w) (unhandled w)).
Proof.
  intros Hwf Hsj. split; cbn.
  - intros d' sj' x. destruct (decide (d' = d)) as [->|Hne].
    + rewrite lookup_insert_eq. intros ? Hx; simplify_eq.
      by apply (wf_observers w Hwf d sj).
    + rewrite lookup_insert_ne by done. apply (wf_observers w Hwf).
  - intros x s d' Hs Hopen Hd.
    destruct (wf_registered w Hwf x s d' Hs Hopen Hd) as (sj' & Hsj' & Hin).
    destruct (decide (d' = d)) as [->|Hne].
    + simplify_eq. rewrite lookup_insert_eq. by eexists.
    + rewrite lookup_insert_ne by done. by eexists.
  - apply (wf_owner w Hwf).
  - apply (wf_private w Hwf).
  - intros o c Hc. destruct (decide (destroy_of c = d)) as [->|Hne].
    + by rewrite lookup_insert_eq.
    + rewrite lookup_insert_ne by done. by apply (wf_allocated w Hwf o).
Qed.

Lemma Subject_next_wf d w : wf w → wf (Subject_next d w).
Proof.
  intros Hwf. unfold Subject_next.
  destruct (subjects w !! d) as [sj|] eqn:Hsj; [|done].
  by apply notify_all_wf, called_wf.
Qed.

Lemma push_later {R T} (inj : Subscribed R T → Subscription)
    (s : Subscribed R T) n st eff errs :
  (∀ s, Subscription_owner (inj s) = owner s) →
  (∀ s, Subscription_notifiers (inj s) = pipe_notifiers (chain s)) →
  (∀ s, Subscription_bare (inj s) ↔ observer s = bare) →
  (∀ s, Subscription_closed (inj s) = closed (state s)) →
  Subscriber_push (chain s) (observer s) (state s) n = (st, eff, errs) →
  later (inj s) (inj (with_state s st)).
Proof.
  intros Ho Hn Hb Hc Hpush. repeat split.
  - by rewrite !Ho.
  - by rewrite !Hn.
  - by rewrite !Hb.
  - rewrite Hc. intros Hcl.
    rewrite Subscriber_push_closed in Hpush by done. simplify_eq.
    by rewrite with_state_id.
Qed.

Lemma push_mutation_wf sid n w : wf w → wf (push_mutation sid n w).
Proof.
  intros Hwf. unfold push_mutation.
  destruct (subscriptions w !! sid) as [[s|s]|] eqn:Hs; [|done..].
  destruct (Subscriber_push _ _ _ _) as [[st eff] errs] eqn:Hpush.
  eapply settle_wf; [done..|]. by eapply (push_later MutationSubscription).
Qed.

Lemma push_query_wf sid n w : wf w → wf (push_query sid n w).
Proof.
  intros Hwf. unfold push_query.
  destruct (subscriptions w !! sid) as [[s|s]|] eqn:Hs; [done| |done].
  destruct (Subscriber_push _ _ _ _) as [[st eff] errs] eqn:Hpush.
  eapply settle_wf; [done..|]. by eapply (push_later QuerySubscription).
Qed.

Lemma fresh_subscription (w : World) :
  subscriptions w !! fresh (dom (subscriptions w)) = None.
Proof. apply not_elem_of_dom, is_fresh. Qed.

Lemma fresh_component (w : World) :
  components w !! fresh (dom (components w)) = None.
Proof. apply not_elem_of_dom, is_fresh. Qed.

Lemma fresh_subject (w : World) :
  subjects w !! fresh (dom (subjects w)) = None.
Proof. apply not_elem_of_dom, is_fresh. Qed.

(** A new chain on a pipe whose only notifier is the subscribing
    component's [destroy$]. *)
Lemma attach_wf sid sub eff errs c w :
  wf w → subscriptions w !! sid = None →
  components w !! Subscription_owner sub = Some c →
  Subscription_notifiers sub = [destroy_of c] →
  Subscription_bare sub →
  wf (settle sid sub eff errs (register sid [destroy_of c] w)).
Proof.
  intros Hwf Hfresh Hc Hn Hb.
  destruct (wf_allocated w Hwf _ c Hc) as [sj0 Hsj0].
  assert (∀ d sj', subjects (settle sid sub eff errs
                               (register sid [destroy_of c] w)) !! d = Some sj' →
            ∃ sj, subjects w !! d = Some sj
                  ∧ ∀ x, x ∈ Subject.observers sj' ↔
                      (x ∈ Subject.observers sj ∨ (x = sid ∧ d = destroy_of c))
                      ∧ (Subscription_closed sub = true → x ≠ sid)) as Hsubj.
  { intros d sj' (sj1 & Hsj1 & _ & Hobs)%settle_subjects_lookup.
    cbn in Hsj1. rewrite lookup_alter in Hsj1. case_decide as Hd.
    - subst d. apply fmap_Some in Hsj1 as (sj & Hsj & ->).
      exists sj. split; [done|].
      intros x. rewrite Hobs. unfold Subject.add; cbn.
      rewrite elem_of_app, list_elem_of_singleton. intuition congruence.
    - exists sj1. split; [done|]. intros x. rewrite Hobs.
      intuition congruence. }
  assert (∀ d sj, subjects w !! d = Some sj →
            ∃ sj', subjects (settle sid sub eff errs
                               (register sid [destroy_of c] w)) !! d = Some sj')
    as Hsubj'.
  { intros d sj Hsj.
    assert (∃ sj1, subjects (register sid [destroy_of c] w) !! d = Some sj1)
      as [sj1 Hsj1].
    { cbn. rewrite lookup_alter. case_decide as Hd;
        [subst d|]; rewrite Hsj; cbn; eauto. }
    destruct (settle_subjects_lookup_inv sid sub eff errs _ d sj1 Hsj1)
      as (sj' & ? & _). eauto. }
  split.
  - intros d sj' x (sj & Hsj & Hobs)%Hsubj Hx. apply Hobs in Hx as [Hx Hne].
    rewrite settle_subscriptions. cbn.
    destruct Hx as [Hx|[-> ->]].
    + destruct (wf_observers w Hwf d sj x Hsj Hx) as (s & Hs & Hopen & Hd).
      exists s. rewrite lookup_insert_ne by congruence. done.
    + rewrite lookup_insert_eq. exists sub. split_and!; [done| |].
      * destruct (Subscription_closed sub); [by destruct Hne|done].
      * rewrite Hn. by apply list_elem_of_singleton.
  - intros x s d. rewrite settle_subscriptions. cbn.
    destruct (decide (x = sid)) as [->|Hxs].
    + rewrite lookup_insert_eq. intros ? Hopen Hd; simplify_eq.
      rewrite Hn in Hd. apply list_elem_of_singleton in Hd as ->.
      destruct (Hsubj' _ _ Hsj0) as [sj' Hsj'].
      exists sj'. split; [done|].
      destruct (Hsubj _ _ Hsj') as (sj & Hsj & Hobs). apply Hobs.
      split; [by right|congruence].
    + rewrite lookup_insert_ne by done. intros Hs Hopen Hd.
      destruct (wf_registered w Hwf x s d Hs Hopen Hd) as (sj & Hsj & Hin).
      destruct (Hsubj' _ _ Hsj) as [sj' Hsj'].
      exists sj'. split; [done|].
      destruct (Hsubj _ _ Hsj') as (sj2 & Hsj2 & Hobs). simplify_eq.
      apply Hobs. split; [by left|done].
  - intros x s. rewrite settle_subscriptions, settle_components. cbn.
    destruct (decide (x = sid)) as [->|Hxs].
    + rewrite lookup_insert_eq. intros ?; simplify_eq. split; [done|].
      destruct (lookup_assigned_inv eff (Subscription_owner s) _ _ c Hc)
        as (c' & Hc' & Hd).
      exists c'. split; [done|]. congruence.
    + rewrite lookup_insert_ne by done. intros Hs.
      destruct (wf_owner w Hwf x s Hs) as (Hb0 & c0 & Hc0 & Hnc).
      split; [done|].
      destruct (lookup_assigned_inv eff (Subscription_owner sub) _ _ c0 Hc0)
        as (c' & Hc' & Hd).
      exists c'. split; [done|]. congruence.
  - intros o1 o2 c1 c2. rewrite settle_components. cbn.
    intros (c1' & H1 & E1)%lookup_assigned (c2' & H2 & E2)%lookup_assigned E.
    eapply (wf_private w Hwf); [done..|congruence].
  - intros o c1. rewrite settle_components. cbn.
    intros (c0 & H0 & E0)%lookup_assigned. rewrite E0.
    destruct (wf_allocated w Hwf o c0 H0) as [sj Hsj].
    destruct (Hsubj' _ _ Hsj) as [sj' Hsj']. eauto.
Qed.

Lemma subscribe_wf {R T} (inj : Subscribed R T → Subscription) this
    (o : Observable Assignment R T) c w :
  (∀ s, Subscription_owner (inj s) = owner s) →
  (∀ s, Subscription_notifiers (inj s) = pipe_notifiers (chain s)) →
  (∀ s, Subscription_bare (inj s) ↔ observer s = bare) →
  wf w → components w !! this = Some c →
  pipe_notifiers (operators o) = [destroy_of c] →
  wf (subscribe inj this o bare w).
Proof.
  intros Ho Hn Hb Hwf Hc Hp. unfold subscribe.
  destruct (Subscriber_new (operators o) bare) as [[st eff] errs].
  rewrite Hp. apply attach_wf; rewrite ?Ho, ?Hn, ?Hb;
    auto using fresh_subscription.
Qed.

Lemma set_component_wf o c c' w :
  wf w → components w !! o = Some c → destroy_of c' = destroy_of c →
  wf (set_component o c' w).
Proof.
  intros Hwf Hc Hd.
  assert (∀ o1 c1, <[o := c']> (components w) !! o1 = Some c1 →
            ∃ c0, components w !! o1 = Some c0 ∧ destroy_of c1 = destroy_of c0)
    as Hold.
  { intros o1 c1. destruct (decide (o1 = o)) as [->|Hne].
    - rewrite lookup_insert_eq. intros; simplify_eq. eauto.
    - rewrite lookup_insert_ne by done. eauto. }
  split; cbn.
  - apply (wf_observers w Hwf).
  - apply (wf_registered w Hwf).
  - intros x s Hs. destruct (wf_owner w Hwf x s Hs) as (Hb & c0 & Hc0 & Hn).
    split; [done|]. destruct (decide (Subscription_owner s = o)) as [E|Hne].
    + rewrite E, lookup_insert_eq. exists c'. split; [done|]. congruence.
    + rewrite lookup_insert_ne by done. eauto.
  - intros o1 o2 c1 c2 (c1' & H1 & E1)%Hold (c2' & H2 & E2)%Hold E.
    eapply (wf_private w Hwf); [done..|congruence].
  - intros o1 c1 (c0 & H0 & E0)%Hold. rewrite E0.
    by apply (wf_allocated w Hwf o1).
Qed.

Lemma new_component_wf (make : nat → Component) w :
  (∀ d, destroy_of (make d) = d) → wf w →
  wf (let '(d, w) := new_Subject w in
      set_component (fresh (dom (components w))) (make d) w).
Proof.
  intros Hmake Hwf. cbn.
  set (d := fresh (dom (subjects w))). set (o := fresh (dom (components w))).
  assert (subjects w !! d = None) as Hd by apply fresh_subject.
  assert (components w !! o = None) as Ho by apply fresh_component.
  split; cbn.
  - intros d' sj x. destruct (decide (d' = d)) as [->|Hne].
    + rewrite lookup_insert_eq. intros ? Hx; simplify_eq.
      by apply elem_of_nil in Hx.
    + rewrite lookup_insert_ne by done. apply (wf_observers w Hwf).
  - intros x s d' Hs Hopen Hd'.
    destruct (wf_registered w Hwf x s d' Hs Hopen Hd') as (sj & Hsj & Hin).
    exists sj. split; [|done]. rewrite lookup_insert_ne; [done|congruence].
  - intros x s Hs. destruct (wf_owner w Hwf x s Hs) as (Hb & c0 & Hc0 & Hn).
    split; [done|]. exists c0. split; [|done].
    rewrite lookup_insert_ne; [done|congruence].
  - intros o1 o2 c1 c2 H1 H2 E.
    destruct (decide (o1 = o)) as [->|Hne1], (decide (o2 = o)) as [->|Hne2];
      [done|..].
    + rewrite lookup_insert_eq in H1. rewrite lookup_insert_ne in H2 by done.
      simplify_eq. rewrite Hmake in E.
      destruct (wf_allocated w Hwf o2 c2 H2) as [sj Hsj]. congruence.
    + rewrite lookup_insert_eq in H2. rewrite lookup_insert_ne in H1 by done.
      simplify_eq. rewrite Hmake in E.
      destruct (wf_allocated w Hwf o1 c1 H1) as [sj Hsj]. congruence.
    + rewrite lookup_insert_ne in H1, H2 by done.
      by eapply (wf_private w Hwf).
  - intros o1 c1. destruct (decide (o1 = o)) as [->|Hne].
    + rewrite lookup_insert_eq. intros; simplify_eq.
      by rewrite Hmake, lookup_insert_eq.
    + rewrite lookup_insert_ne by done. intros H1.
      destruct (wf_allocated w Hwf o1 c1 H1) as [sj Hsj].
      exists sj. rewrite lookup_insert_ne; [done|congruence].
Qed.

Lemma mark_destroyed_wf o w : wf w → wf (mark_destroyed o w).
Proof. intros [H1 H2 H3 H4 H5]. by split. Qed.

Lemma step_wf w e : wf w → wf (step w e).
Proof.
  intros Hwf. destruct e as [| |o|o|o|sid n|sid n]; cbn.
  - by apply (new_component_wf
                (fun d => PlanetComponentInstance (PlanetFields.mk d None))).
  - by apply (new_component_wf
                (fun d => HeroDetailComponentInstance
                            (HeroDetailFields.mk d None None JsNull))).
  - destruct (components w !! o) as [[c|c]|] eqn:Hc; [| |done].
    + unfold PlanetComponent.ngOnInit. rewrite Hc.
      by eapply set_component_wf.
    + unfold HeroDetailComponent.ngOnInit. rewrite Hc.
      eapply (subscribe_wf QuerySubscription) with
        (c := HeroDetailComponentInstance
                (HeroDetailFields.mk (HeroDetailFields.destroy' c) _ _ _));
        [done..| | |reflexivity].
      * by eapply set_component_wf.
      * cbn. by rewrite lookup_insert_eq.
  - destruct (components w !! o) as [[c|c]|] eqn:Hc; [| |done].
    + unfold PlanetComponent.ngOnDestroy. cbn. rewrite Hc.
      by apply Subject_next_wf, mark_destroyed_wf.
    + unfold HeroDetailComponent.ngOnDestroy. cbn. rewrite Hc.
      by apply Subject_next_wf, mark_destroyed_wf.
  - unfold PlanetComponent.addPlanet.
    destruct (components w !! o) as [[c|c]|] eqn:Hc; [|done..].
    by eapply (subscribe_wf MutationSubscription) with
      (c := PlanetComponentInstance c).
  - by apply push_mutation_wf.
  - by apply push_query_wf.
Qed.

Lemma run_wf w es : wf w → wf (run w es).
Proof.
  revert w. induction es as [|e es IH]; intros w Hwf; cbn; [done|].
  by apply IH, step_wf.
Qed.

Lemma empty_world_wf : wf empty_world.
Proof. split; cbn; intros *; by rewrite ?lookup_empty. Qed.

Lemma reachable_wf w : reachable w → wf w.
Proof. intros [es ->]. apply run_wf, empty_world_wf. Qed.

Lemma subscribe_subscriptions {R T} (inj : Subscribed R T → Subscription) this
    (o : Observable Assignment R T) obs w :
  subscriptions (subscribe inj this o obs w) =
  <[fresh (dom (subscriptions w)) :=
      inj (mkSubscribed this (operators o) obs
             (Subscriber_new (operators o) obs).1.1)]> (subscriptions w).
Proof.
  unfold subscribe.
  destruct (Subscriber_new (operators o) obs) as [[st eff] errs].
  by rewrite settle_subscriptions.
Qed.

Lemma subscribe_frame {R T} (inj : Subscribed R T → Subscription) this
    (o : Observable Assignment R T) obs w sid sub :
  subscriptions w !! sid = Some sub →
  subscriptions (subscribe inj this o obs w) !! sid = Some sub.
Proof.
  intros Hs. rewrite subscribe_subscriptions, lookup_insert_ne; [done|].
  intros E. rewrite <- E, fresh_subscription in Hs. done.
Qed.

Lemma push_mutation_frame sid' n w sid :
  sid' ≠ sid →
  subscriptions (push_mutation sid' n w) !! sid = subscriptions w !! sid.
Proof.
  intros Hne. unfold push_mutation.
  destruct (subscriptions w !! sid') as [[s|s]|]; [|done..].
  destruct (Subscriber_push _ _ _ _) as [[st eff] errs].
  by rewrite settle_subscriptions, lookup_insert_ne.
Qed.

Lemma push_query_frame sid' n w sid :
  sid' ≠ sid →
  subscriptions (push_query sid' n w) !! sid = subscriptions w !! sid.
Proof.
  intros Hne. unfold push_query.
  destruct (subscriptions w !! sid') as [[s|s]|]; [done| |done].
  destruct (Subscriber_push _ _ _ _) as [[st eff] errs].
  by rewrite settle_subscriptions, lookup_insert_ne.
Qed.

Lemma push_mutation_frozen sid' n w sid sub :
  subscriptions w !! sid = Some sub → Subscription_closed sub = true →
  subscriptions (push_mutation sid' n w) !! sid = Some sub.
Proof.
  intros Hs Hc. destruct (decide (sid' = sid)) as [->|Hne];
    [|by rewrite push_mutation_frame].
  unfold push_mutation. rewrite Hs. destruct sub as [s|s]; [|done].
  rewrite Subscriber_push_closed by done.
  by rewrite settle_subscriptions, lookup_insert_eq, with_state_id.
Qed.

Lemma push_query_frozen sid' n w sid sub :
  subscriptions w !! sid = Some sub → Subscription_closed sub = true →
  subscriptions (push_query sid' n w) !! sid = Some sub.
Proof.
  intros Hs Hc. destruct (decide (sid' = sid)) as [->|Hne];
    [|by rewrite push_query_frame].
  unfold push_query. rewrite Hs. destruct sub as [s|s]; [done|].
  rewrite Subscriber_push_closed by done.
  by rewrite settle_subscriptions, lookup_insert_eq, with_state_id.
Qed.

(** Whatever happens next, a closed chain stays as it is: its observer is
    never called again. *)
Lemma step_frozen w e sid sub :
  subscriptions w !! sid = Some sub → Subscription_closed sub = true →
  subscriptions (step w e) !! sid = Some sub.
Proof.
  intros Hs Hc. destruct e as [| |o|o|o|sid' n|sid' n]; cbn.
  - done.
  - done.
  - destruct (components w !! o) as [[c|c]|] eqn:Hco; [| |done].
    + unfold PlanetComponent.ngOnInit. by rewrite Hco.
    + unfold HeroDetailComponent.ngOnInit. rewrite Hco.
      by apply subscribe_frame.
  - destruct (components w !! o) as [[c|c]|] eqn:Hco; [| |done].
    + unfold PlanetComponent.ngOnDestroy. cbn. rewrite Hco.
      by apply Subject_next_frozen.
    + unfold HeroDetailComponent.ngOnDestroy. cbn. rewrite Hco.
      by apply Subject_next_frozen.
  - unfold PlanetComponent.addPlanet.
    destruct (components w !! o) as [[c|c]|] eqn:Hco; [|done..].
    by apply subscribe_frame.
  - by apply push_mutation_frozen.
  - by apply push_query_frozen.
Qed.

Lemma run_frozen w es sid sub :
  subscriptions w !! sid = Some sub → Subscription_closed sub = true →
  subscriptions (run w es) !! sid = Some sub.
Proof.
  revert w. induction es as [|e es IH]; intros w Hs Hc; cbn; [done|].
  apply IH; [|done]. by apply step_frozen.
Qed.

(** ** Firing a subject closes the chains that listen to it *)

Lemma notify_closes d sid sub w :
  subscriptions w !! sid = Some sub → d ∈ Subscription_notifiers sub →
  Subscription_bare sub →
  ∃ sub', subscriptions (notify d sid w) !! sid = Some sub'
          ∧ Subscription_closed sub' = true
          ∧ Subscription_received sub' = Subscription_received sub.
Proof.
  intros Hs Hd Hb. destruct (Subscription_closed sub) eqn:Hc.
  { exists sub. split; [|done]. by apply notify_frozen. }
  unfold notify. rewrite Hs.
  destruct (Subscription_signal_listening d sub Hc Hd Hb)
    as (sub' & -> & Hc' & Hr).
  exists sub'. by rewrite settle_subscriptions, lookup_insert_eq.
Qed.

Lemma notify_all_closes d l sid sub w :
  sid ∈ l →
  subscriptions w !! sid = Some sub → d ∈ Subscription_notifiers sub →
  Subscription_bare sub →
  ∃ sub', subscriptions (foldl (fun w sid => notify d sid w) w l) !! sid
          = Some sub'
          ∧ Subscription_closed sub' = true
          ∧ Subscription_received sub' = Subscription_received sub.
Proof.
  revert w. induction l as [|x l IH]; intros w Hin Hs Hd Hb.
  { by apply elem_of_nil in Hin. }
  cbn. destruct (decide (x = sid)) as [->|Hne].
  - destruct (notify_closes d sid sub w Hs Hd Hb) as (sub' & Hs' & Hc' & Hr).
    exists sub'. split; [|done]. by apply notify_all_frozen.
  - apply elem_of_cons in Hin as [->|Hin]; [done|].
    apply IH; [done| |done..]. by rewrite notify_frame.
Qed.

(** Destroying the owner of a chain closes the chain, and hands nothing to
    its observer. *)
Lemma Destroy_closes w o sid sub :
  wf w → subscriptions w !! sid = Some sub → Subscription_owner sub = o →
  ∃ sub', subscriptions (step w (Destroy o)) !! sid = Some sub'
          ∧ Subscription_closed sub' = true
          ∧ Subscription_received sub' = Subscription_received sub.
Proof.
  intros Hwf Hs Ho. destruct (Subscription_closed sub) eqn:Hc.
  { exists sub. split; [|done]. by apply step_frozen. }
  destruct (wf_owner w Hwf sid sub Hs) as (Hb & c & Hco & Hn).
  rewrite Ho in Hco.
  assert (destroy_of c ∈ Subscription_notifiers sub) as Hd.
  { rewrite Hn. by apply list_elem_of_singleton. }
  destruct (wf_registered w Hwf sid sub _ Hs Hc Hd) as (sj & Hsj & Hin).
  assert (step w (Destroy o) = Subject_next (destroy_of c) (mark_destroyed o w))
    as ->.
  { cbn. rewrite Hco. destruct c as [c|c]; cbn.
    - unfold PlanetComponent.ngOnDestroy. cbn. by rewrite Hco.
    - unfold HeroDetailComponent.ngOnDestroy. cbn. by rewrite Hco. }
  unfold Subject_next. cbn. rewrite Hsj.
  by apply notify_all_closes.
Qed.

(** * The mutation chain of PlanetComponent.addPlanet *)

Lemma addPlanet_subscriptions w this c :
  components w !! this = Some (PlanetComponentInstance c) →
  subscriptions (PlanetComponent.addPlanet this w) =
  <[fresh (dom (subscriptions w)) :=
      MutationSubscription
        (mkSubscribed this (addPlanet_chain (PlanetFields.destroy' c)) bare
                      (mkSubscriber false [0; 0; 0; 0] []))]>
    (subscriptions w).
Proof.
  intros Hc. unfold PlanetComponent.addPlanet. rewrite Hc.
  by rewrite subscribe_subscriptions.
Qed.

(** C1.  A subscription made by [addPlanet] (take(1) piped before
    takeUntil(destroy$)) hands its observer the first value of the
    repository's observable and nothing else: the first emission closes the
    chain, with no help from the guard, and the second emission, like
    anything that happens later, leaves it as it is. *)
Theorem addPlanet_delivers_first_value_only w this c p1 p2 es :
  components w !! this = Some (PlanetComponentInstance c) →
  let sid := fresh (dom (subscriptions w)) in
  let first := MutationEmits sid (Next (mkResult (JsValue p1))) in
  let second := MutationEmits sid (Next (mkResult (JsValue p2))) in
  let w1 := step (PlanetComponent.addPlanet this w) first in
  (∃ s, subscriptions w1 !! sid = Some (MutationSubscription s)
        ∧ closed (state s) = true
        ∧ received (state s) = [JsValue p1])
  ∧ subscriptions (run w1 (second :: es)) !! sid = subscriptions w1 !! sid.
Proof.
  intros Hc sid first second w1.
  assert (subscriptions w1 !! sid =
          Some (MutationSubscription
                  (mkSubscribed this (addPlanet_chain (PlanetFields.destroy' c))
                     bare (mkSubscriber true [0; 0; 1; 0] [JsValue p1]))))
    as Hw1.
  { unfold w1, first, step, push_mutation.
    rewrite (addPlanet_subscriptions w this c Hc).
    fold sid. rewrite lookup_insert_eq. cbn.
    by rewrite lookup_insert_eq. }
  split.
  - eexists. split; [exact Hw1|]. done.
  - rewrite Hw1. by apply run_frozen.
Qed.

Lemma addPlanet_delivers_first_value_only_witness :
  let w := run empty_world [CreatePlanetComponent] in
  let w1 := step (PlanetComponent.addPlanet 0 w)
                 (MutationEmits 0 (Next (mkResult (JsValue earth)))) in
  (∃ s, subscriptions w1 !! 0 = Some (MutationSubscription s)
        ∧ closed (state s) = true
        ∧ received (state s) = [JsValue earth])
  ∧ subscriptions
      (run w1 [MutationEmits 0 (Next (mkResult (JsValue (Planet.mk "Mars" "-60" "no"))));
               Destroy 0]) !! 0
    = subscriptions w1 !! 0.
Proof.
  apply (addPlanet_delivers_first_value_only
           (run empty_world [CreatePlanetComponent]) 0 (PlanetFields.mk 0 None)
           earth (Planet.mk "Mars" "-60" "no") [Destroy 0]).
  vm_compute. reflexivity.
Defined.

(** C3.  Destroying an owner closes every chain that is attached to it at
    that moment without handing its observer anything, and from then on
    the chain is frozen: whatever the source emits afterwards, nothing
    more is delivered. *)
Theorem no_delivery_after_destroy w o sid sub es :
  reachable w →
  subscriptions w !! sid = Some sub → Subscription_owner sub = o →
  let w1 := step w (Destroy o) in
  ∃ sub', subscriptions w1 !! sid = Some sub'
          ∧ Subscription_closed sub' = true
          ∧ Subscription_received sub' = Subscription_received sub
          ∧ subscriptions (run w1 es) !! sid = Some sub'.
Proof.
  intros Hw Hs Ho w1.
  destruct (Destroy_closes w o sid sub (reachable_wf w Hw) Hs Ho)
    as (sub' & Hs' & Hc' & Hr).
  exists sub'. split_and!; [done..|]. by apply run_frozen.
Qed.

Lemma no_delivery_after_destroy_witness :
  let w := run empty_world
             [CreateHeroDetailComponent; Init 0;
              QueryEmits 0 (Next (mkResult (JsValue [earth])))] in
  let sub := QuerySubscription
               (mkSubscribed 0 (getAllPlanets_chain 0) bare
                  (mkSubscriber false [0; 0; 0; 0] [JsValue [earth]])) in
  let w1 := step w (Destroy 0) in
  ∃ sub', subscriptions w1 !! 0 = Some sub'
          ∧ Subscription_closed sub' = true
          ∧ Subscription_received sub' = Subscription_received sub
          ∧ subscriptions
              (run w1 [QueryEmits 0 (Next (mkResult (JsValue [earth; earth])))])
              !! 0 = Some sub'.
Proof.
  apply (no_delivery_after_destroy
           (run empty_world
              [CreateHeroDetailComponent; Init 0;
               QueryEmits 0 (Next (mkResult (JsValue [earth])))])
           0 0 _ [QueryEmits 0 (Next (mkResult (JsValue [earth; earth])))]).
  - by eexists.
  - vm_compute. reflexivity.
  - reflexivity.
Defined.

(** A chain subscribed once the signal has fired is out of its reach.
    [addPlanet] called on a destroyed PlanetComponent, whose [destroy$]
    has emitted once, subscribes a chain guarded by that [destroy$]; the
    chain is open and among the subject's observers, and the result its
    source emits afterwards is delivered. *)
Lemma delivery_after_destroy_counterexample :
  let w := run empty_world
             [CreatePlanetComponent; Destroy 0; ClickAddPlanet 0] in
  let w' := step w (MutationEmits 0 (Next (mkResult (JsValue earth)))) in
  0 ∈ destroyed w
  ∧ components w !! 0 = Some (PlanetComponentInstance (PlanetFields.mk 0 None))
  ∧ subjects w !! 0 = Some (Subject.mk [0] 1)
  ∧ subscriptions w !! 0
    = Some (MutationSubscription
              (mkSubscribed 0 (addPlanet_chain 0) bare
                 (mkSubscriber false [0; 0; 0; 0] [])))
  ∧ ∃ s', subscriptions w' !! 0 = Some (MutationSubscription s')
          ∧ owner s' = 0
          ∧ received (state s') = [JsValue earth].
Proof.
  split_and!.
  - vm_compute. set_solver.
  - vm_compute. reflexivity.
  - vm_compute. reflexivity.
  - vm_compute. reflexivity.
  - eexists. split_and!; [vm_compute; reflexivity|reflexivity..].
Qed.

(** ** A chain whose source is silent and whose owner lives is left alone *)

Lemma Subject_next_frame d w sid :
  (∀ sj, subjects w !! d = Some sj → sid ∉ Subject.observers sj) →
  subscriptions (Subject_next d w) !! sid = subscriptions w !! sid.
Proof.
  intros Hout. unfold Subject_next.
  destruct (subjects w !! d) as [sj|] eqn:Hsj; [|done].
  rewrite notify_all_frame; [done|]. by apply Hout.
Qed.

(** The observers of a component's [destroy$] are chains of that
    component. *)
Lemma observers_owned w o c sj sid :
  wf w → components w !! o = Some c →
  subjects w !! destroy_of c = Some sj → sid ∈ Subject.observers sj →
  ∃ sub, subscriptions w !! sid = Some sub ∧ Subscription_owner sub = o.
Proof.
  intros Hwf Hc Hsj Hin.
  destruct (wf_observers w Hwf _ sj sid Hsj Hin) as (sub & Hs & _ & Hd).
  destruct (wf_owner w Hwf sid sub Hs) as (_ & c' & Hc' & Hn).
  rewrite Hn in Hd. apply list_elem_of_singleton in Hd.
  exists sub. split; [done|]. by eapply (wf_private w Hwf).
Qed.

Lemma Destroy_frame w o sid sub :
  wf w → subscriptions w !! sid = Some sub → Subscription_owner sub ≠ o →
  subscriptions (step w (Destroy o)) !! sid = Some sub.
Proof.
  intros Hwf Hs Hne. cbn.
  destruct (components w !! o) as [c|] eqn:Hc; [|done].
  assert (subscriptions (Subject_next (destroy_of c) (mark_destroyed o w))
            !! sid = Some sub) as Hgoal.
  { rewrite Subject_next_frame; [done|]. cbn. intros sj Hsj Hin.
    destruct (observers_owned w o c sj sid Hwf Hc Hsj Hin) as (sub' & ? & ?).
    congruence. }
  destruct c as [c|c]; cbn in Hgoal.
  - unfold PlanetComponent.ngOnDestroy. cbn. by rewrite Hc.
  - unfold HeroDetailComponent.ngOnDestroy. cbn. by rewrite Hc.
Qed.

Lemma step_untouched w e this sid sub :
  wf w → subscriptions w !! sid = Some sub → Subscription_owner sub = this →
  quiet this sid e = true →
  subscriptions (step w e) !! sid = Some sub.
Proof.
  intros Hwf Hs Ho Hq. destruct e as [| |o|o|o|sid' n|sid' n]; cbn in *.
  - done.
  - done.
  - destruct (components w !! o) as [[c|c]|] eqn:Hco; [| |done].
    + unfold PlanetComponent.ngOnInit. by rewrite Hco.
    + unfold HeroDetailComponent.ngOnInit. rewrite Hco.
      by apply subscribe_frame.
  - apply negb_true_iff, Nat.eqb_neq in Hq.
    apply (Destroy_frame w o sid sub Hwf Hs). congruence.
  - unfold PlanetComponent.addPlanet.
    destruct (components w !! o) as [[c|c]|] eqn:Hco; [|done..].
    by apply subscribe_frame.
  - apply negb_true_iff, Nat.eqb_neq in Hq.
    by rewrite push_mutation_frame.
  - apply negb_true_iff, Nat.eqb_neq in Hq.
    by rewrite push_query_frame.
Qed.

Lemma run_untouched w es this sid sub :
  wf w → subscriptions w !! sid = Some sub → Subscription_owner sub = this →
  forallb (quiet this sid) es = true →
  subscriptions (run w es) !! sid = Some sub.
Proof.
  revert w. induction es as [|e es IH]; intros w Hwf Hs Ho Hq; cbn in *;
    [done|].
  apply andb_true_iff in Hq as [Hq Hqs].
  apply IH; [by apply step_wf| |done..]. by eapply step_untouched.
Qed.

(** C2.  A subscription made by [addPlanet] whose source never emits stays
    pending, with nothing delivered, for as long as its owner lives (the
    events [es], of any number T); the owner's destruction at time T closes
    it, still with nothing delivered, and nothing is delivered ever
    after. *)
Theorem addPlanet_cancelled_by_destroy w this c es :
  reachable w →
  components w !! this = Some (PlanetComponentInstance c) →
  let sid := fresh (dom (subscriptions w)) in
  forallb (quiet this sid) es = true →
  let wT := run (PlanetComponent.addPlanet this w) es in
  (∃ sub, subscriptions wT !! sid = Some sub
          ∧ Subscription_closed sub = false
          ∧ Subscription_received sub = [])
  ∧ (∃ sub, subscriptions (step wT (Destroy this)) !! sid = Some sub
            ∧ Subscription_closed sub = true
            ∧ Subscription_received sub = []
            ∧ ∀ es', subscriptions (run (step wT (Destroy this)) es') !! sid
                     = Some sub).
Proof.
  intros Hw Hc sid Hq wT.
  set (sub0 := MutationSubscription
                 (mkSubscribed this (addPlanet_chain (PlanetFields.destroy' c))
                    bare (mkSubscriber false [0; 0; 0; 0] []))).
  assert (wf (PlanetComponent.addPlanet this w)) as Hwf0.
  { apply (step_wf w (ClickAddPlanet this)), reachable_wf, Hw. }
  assert (subscriptions (PlanetComponent.addPlanet this w) !! sid = Some sub0)
    as Hs0.
  { rewrite (addPlanet_subscriptions w this c Hc). apply lookup_insert_eq. }
  assert (subscriptions wT !! sid = Some sub0) as HsT.
  { by apply (run_untouched _ es this). }
  split; [by exists sub0|].
  destruct (Destroy_closes wT this sid sub0) as (sub' & Hs' & Hc' & Hr);
    [by apply run_wf|done..|].
  exists sub'. split_and!; [done|done|exact Hr|].
  intros es'. by apply run_frozen.
Qed.

Lemma addPlanet_cancelled_by_destroy_witness :
  let w := run empty_world [CreatePlanetComponent; CreateHeroDetailComponent] in
  let wT := run (PlanetComponent.addPlanet 0 w)
                [Init 1; ClickAddPlanet 0; Destroy 1] in
  (∃ sub, subscriptions wT !! 0 = Some sub
          ∧ Subscription_closed sub = false
          ∧ Subscription_received sub = [])
  ∧ (∃ sub, subscriptions (step wT (Destroy 0)) !! 0 = Some sub
            ∧ Subscription_closed sub = true
            ∧ Subscription_received sub = []
            ∧ ∀ es', subscriptions (run (step wT (Destroy 0)) es') !! 0
                     = Some sub).
Proof.
  apply (addPlanet_cancelled_by_destroy
           (run empty_world [CreatePlanetComponent; CreateHeroDetailComponent])
           0 (PlanetFields.mk 0 None) [Init 1; ClickAddPlanet 0; Destroy 1]).
  - by eexists.
  - vm_compute. reflexivity.
  - vm_compute. reflexivity.
Defined.

(** ** What firing does to the subject itself *)

(** Under the invariant a notification runs no callback and reports no
    error: the chains have no handlers. *)
Lemma Subscription_signal_silent w d sid sub :
  wf w → subscriptions w !! sid = Some sub →
  ∃ sub', Subscription_signal d sub = (sub', [], []).
Proof.
  intros Hwf Hs. destruct (wf_owner w Hwf sid sub Hs) as (Hb & _).
  destruct (Subscription_closed sub) eqn:Hc.
  { rewrite Subscription_signal_closed by done. eauto. }
  destruct (decide (d ∈ Subscription_notifiers sub)) as [Hd|Hd].
  - destruct (Subscription_signal_listening d sub Hc Hd Hb) as (sub' & -> & _).
    eauto.
  - destruct (Subscription_signal_deaf d sub Hd) as (sub' & -> & _). eauto.
Qed.

Lemma notify_silent d sid w :
  wf w →
  components (notify d sid w) = components w
  ∧ unhandled (notify d sid w) = unhandled w
  ∧ destroyed (notify d sid w) = destroyed w.
Proof.
  intros Hwf. unfold notify.
  destruct (subscriptions w !! sid) as [sub|] eqn:Hs; [|done].
  destruct (Subscription_signal_silent w d sid sub Hwf Hs) as [sub' ->].
  rewrite settle_components, settle_unhandled, settle_destroyed.
  by rewrite alter_nothing, app_nil_r.
Qed.

Lemma notify_all_silent d l w :
  wf w →
  components (foldl (fun w sid => notify d sid w) w l) = components w
  ∧ unhandled (foldl (fun w sid => notify d sid w) w l) = unhandled w
  ∧ destroyed (foldl (fun w sid => notify d sid w) w l) = destroyed w.
Proof.
  revert w. induction l as [|x l IH]; intros w Hwf; cbn; [done|].
  destruct (IH (notify d x w) (notify_wf d x w Hwf)) as (-> & -> & ->).
  by apply notify_silent.
Qed.

Lemma Subject_next_silent d w :
  wf w →
  components (Subject_next d w) = components w
  ∧ unhandled (Subject_next d w) = unhandled w
  ∧ destroyed (Subject_next d w) = destroyed w.
Proof.
  intros Hwf. unfold Subject_next.
  destruct (subjects w !! d) as [sj|] eqn:Hsj; [|done].
  by destruct (notify_all_silent d (Subject.observers sj) _
                 (called_wf d sj w Hwf Hsj)) as (-> & -> & ->).
Qed.

(** A notified observer is gone from the subject. *)
Lemma notify_drops d x sj w :
  wf w → subjects w !! d = Some sj →
  ∃ sj', subjects (notify d x w) !! d = Some sj'
         ∧ Subject.nexts sj' = Subject.nexts sj
         ∧ ∀ y, y ∈ Subject.observers sj' → y ∈ Subject.observers sj ∧ y ≠ x.
Proof.
  intros Hwf Hsj. unfold notify.
  destruct (subscriptions w !! x) as [sub|] eqn:Hs.
  - destruct (Subscription_signal d sub) as [[sub' eff] errs] eqn:Hsig.
    destruct (settle_subjects_lookup_inv x sub' eff errs w d sj Hsj)
      as (sj' & Hsj' & Hn & Hobs).
    exists sj'. split_and!; [done..|]. intros y [Hy Hne]%Hobs.
    split; [done|]. intros ->. apply Hne; [|done].
    destruct (wf_observers w Hwf d sj x Hsj Hy) as (sub0 & Hs0 & Hopen & Hd).
    assert (sub0 = sub) as -> by congruence.
    destruct (wf_owner w Hwf x sub Hs) as (Hb & _).
    destruct (Subscription_signal_listening d sub Hopen Hd Hb)
      as (sub1 & Hsig1 & Hc1 & _).
    congruence.
  - exists sj. split_and!; [done..|]. intros y Hy. split; [done|].
    intros ->.
    destruct (wf_observers w Hwf d sj x Hsj Hy) as (sub0 & Hs0 & _).
    congruence.
Qed.

Lemma notify_all_drains d l sj w :
  wf w → subjects w !! d = Some sj →
  ∃ sj', subjects (foldl (fun w sid => notify d sid w) w l) !! d = Some sj'
         ∧ Subject.nexts sj' = Subject.nexts sj
         ∧ ∀ y, y ∈ Subject.observers sj' → y ∈ Subject.observers sj ∧ y ∉ l.
Proof.
  revert sj w. induction l as [|x l IH]; intros sj w Hwf Hsj; cbn.
  - exists sj. split_and!; [done..|]. intros y Hy. split; [done|].
    apply not_elem_of_nil.
  - destruct (notify_drops d x sj w Hwf Hsj) as (sj1 & Hsj1 & Hn1 & Hobs1).
    destruct (IH sj1 (notify d x w) (notify_wf d x w Hwf) Hsj1)
      as (sj' & Hsj' & Hn' & Hobs').
    exists sj'. split_and!; [done|congruence|].
    intros y [[Hy Hne]%Hobs1 Hnl]%Hobs'. split; [done|].
    by apply not_elem_of_cons.
Qed.

(** After [next()] the subject has been called once more and has no
    observer left. *)
Lemma Subject_next_drains d sj w :
  wf w → subjects w !! d = Some sj →
  subjects (Subject_next d w) !! d = Some (Subject.mk [] (S (Subject.nexts sj))).
Proof.
  intros Hwf Hsj. unfold Subject_next. rewrite Hsj.
  destruct (notify_all_drains d (Subject.observers sj) (Subject.called sj) _
              (called_wf d sj w Hwf Hsj)) as (sj' & Hsj' & Hn & Hobs).
  { cbn. apply lookup_insert_eq. }
  rewrite Hsj'. f_equal. destruct sj' as [obs n]; cbn in *. f_equal; [|done].
  apply elem_of_nil_inv. intros y Hy. destruct (Hobs y Hy) as [Hin Hout].
  by apply Hout.
Qed.

(** A subject without observers: [next()] only counts the call. *)
Lemma Subject_next_idle d n w :
  subjects w !! d = Some (Subject.mk [] n) →
  Subject_next d w =
  mkWorld (<[d := Subject.mk [] (S n)]> (subjects w)) (components w)
          (subscriptions w) (destroyed w) (unhandled w).
Proof. intros Hsj. unfold Subject_next. by rewrite Hsj. Qed.

Lemma fire_again d w :
  wf w →
  forget_calls (Subject_next d (Subject_next d w)) =
  forget_calls (Subject_next d w).
Proof.
  intros Hwf. destruct (subjects w !! d) as [sj|] eqn:Hsj.
  - pose proof (Subject_next_drains d sj w Hwf Hsj) as Hd.
    rewrite (Subject_next_idle d _ _ Hd). unfold forget_calls; cbn. f_equal.
    rewrite fmap_insert. apply insert_id. by rewrite lookup_fmap, Hd.
  - unfold Subject_next at 2 3. rewrite Hsj. unfold Subject_next.
    by rewrite Hsj.
Qed.

Lemma fire_many d n w :
  wf w →
  forget_calls (Nat.iter (S n) (Subject_next d) w) =
  forget_calls (Subject_next d w).
Proof.
  intros Hwf. revert w Hwf. induction n as [|n IH]; intros w Hwf; [done|].
  rewrite Nat.iter_succ_r. rewrite IH by by apply Subject_next_wf.
  by apply fire_again.
Qed.

Lemma fire_many_silent d n w :
  wf w →
  wf (Nat.iter n (Subject_next d) w)
  ∧ unhandled (Nat.iter n (Subject_next d) w) = unhandled w
  ∧ components (Nat.iter n (Subject_next d) w) = components w.
Proof.
  intros Hwf. induction n as [|n (IHwf & IHu & IHc)]; [done|].
  change (Nat.iter (S n) (Subject_next d) w)
    with (Subject_next d (Nat.iter n (Subject_next d) w)).
  destruct (Subject_next_silent d _ IHwf) as (Hc & Hu & _).
  split_and!; [by apply Subject_next_wf|congruence..].
Qed.

Lemma PlanetComponent_ngOnDestroy_iter w this c n :
  wf w → components w !! this = Some (PlanetComponentInstance c) →
  Nat.iter n (PlanetComponent.ngOnDestroy this) w =
  Nat.iter n (Subject_next (PlanetFields.destroy' c)) w.
Proof.
  intros Hwf Hc. induction n as [|n IH]; [done|].
  change (Nat.iter (S n) (PlanetComponent.ngOnDestroy this) w)
    with (PlanetComponent.ngOnDestroy this
            (Nat.iter n (PlanetComponent.ngOnDestroy this) w)).
  rewrite IH. unfold PlanetComponent.ngOnDestroy at 1.
  destruct (fire_many_silent (PlanetFields.destroy' c) n w Hwf) as (_ & _ & ->).
  by rewrite Hc.
Qed.

Lemma HeroDetailComponent_ngOnDestroy_iter w this c n :
  wf w → components w !! this = Some (HeroDetailComponentInstance c) →
  Nat.iter n (HeroDetailComponent.ngOnDestroy this) w =
  Nat.iter n (Subject_next (HeroDetailFields.destroy' c)) w.
Proof.
  intros Hwf Hc. induction n as [|n IH]; [done|].
  change (Nat.iter (S n) (HeroDetailComponent.ngOnDestroy this) w)
    with (HeroDetailComponent.ngOnDestroy this
            (Nat.iter n (HeroDetailComponent.ngOnDestroy this) w)).
  rewrite IH. unfold HeroDetailComponent.ngOnDestroy at 1.
  destruct (fire_many_silent (HeroDetailFields.destroy' c) n w Hwf)
    as (_ & _ & ->).
  by rewrite Hc.
Qed.

(** C4.  Firing is idempotent.  For either component class, calling
    [ngOnDestroy] (that is, [destroy$.next()]) n >= 1 times leaves the
    world in the state one call leaves it in: the same observers on every
    subject, the same state of every subscription and of every component.
    The repeated calls report no error. *)
Theorem fire_idempotent w this n :
  reachable w → 1 ≤ n →
  (forget_calls (Nat.iter n (PlanetComponent.ngOnDestroy this) w) =
   forget_calls (PlanetComponent.ngOnDestroy this w)
   ∧ unhandled (Nat.iter n (PlanetComponent.ngOnDestroy this) w) = unhandled w)
  ∧ (forget_calls (Nat.iter n (HeroDetailComponent.ngOnDestroy this) w) =
     forget_calls (HeroDetailComponent.ngOnDestroy this w)
     ∧ unhandled (Nat.iter n (HeroDetailComponent.ngOnDestroy this) w)
       = unhandled w).
Proof.
  intros Hw Hn. pose proof (reachable_wf w Hw) as Hwf.
  destruct n as [|n]; [lia|].
  destruct (components w !! this) as [[c|c]|] eqn:Hc.
  - split.
    + rewrite (PlanetComponent_ngOnDestroy_iter w this c (S n) Hwf Hc).
      change (PlanetComponent.ngOnDestroy this w)
        with (Nat.iter 1 (PlanetComponent.ngOnDestroy this) w).
      rewrite (PlanetComponent_ngOnDestroy_iter w this c 1 Hwf Hc).
      split; [by apply fire_many|].
      by destruct (fire_many_silent (PlanetFields.destroy' c) (S n) w Hwf)
        as (_ & -> & _).
    + assert (∀ w, components w !! this = Some (PlanetComponentInstance c) →
                   HeroDetailComponent.ngOnDestroy this w = w) as Hid.
      { intros w' Hc'. unfold HeroDetailComponent.ngOnDestroy. by rewrite Hc'. }
      assert (Nat.iter (S n) (HeroDetailComponent.ngOnDestroy this) w = w)
        as ->.
      { clear Hn. induction n as [|n IH]; [by apply Hid|].
        change (HeroDetailComponent.ngOnDestroy this
                  (Nat.iter (S n) (HeroDetailComponent.ngOnDestroy this) w) = w).
        rewrite IH. by apply Hid. }
      by rewrite Hid.
  - split.
    + assert (∀ w, components w !! this = Some (HeroDetailComponentInstance c) →
                   PlanetComponent.ngOnDestroy this w = w) as Hid.
      { intros w' Hc'. unfold PlanetComponent.ngOnDestroy. by rewrite Hc'. }
      assert (Nat.iter (S n) (PlanetComponent.ngOnDestroy this) w = w) as ->.
      { clear Hn. induction n as [|n IH]; [by apply Hid|].
        change (PlanetComponent.ngOnDestroy this
                  (Nat.iter (S n) (PlanetComponent.ngOnDestroy this) w) = w).
        rewrite IH. by apply Hid. }
      by rewrite Hid.
    + rewrite (HeroDetailComponent_ngOnDestroy_iter w this c (S n) Hwf Hc).
      change (HeroDetailComponent.ngOnDestroy this w)
        with (Nat.iter 1 (HeroDetailComponent.ngOnDestroy this) w).
      rewrite (HeroDetailComponent_ngOnDestroy_iter w this c 1 Hwf Hc).
      split; [by apply fire_many|].
      by destruct (fire_many_silent (HeroDetailFields.destroy' c) (S n) w Hwf)
        as (_ & -> & _).
  - assert (∀ w, components w !! this = None →
                 PlanetComponent.ngOnDestroy this w = w
                 ∧ HeroDetailComponent.ngOnDestroy this w = w) as Hid.
    { intros w' Hc'.
      unfold PlanetComponent.ngOnDestroy, HeroDetailComponent.ngOnDestroy.
      by rewrite Hc'. }
    assert (Nat.iter (S n) (PlanetComponent.ngOnDestroy this) w = w
            ∧ Nat.iter (S n) (HeroDetailComponent.ngOnDestroy this) w = w)
      as [-> ->].
    { clear Hn. induction n as [|n [IH1 IH2]]; [by apply Hid|].
      change (PlanetComponent.ngOnDestroy this
                (Nat.iter (S n) (PlanetComponent.ngOnDestroy this) w) = w
              ∧ HeroDetailComponent.ngOnDestroy this
                  (Nat.iter (S n) (HeroDetailComponent.ngOnDestroy this) w) = w).
      rewrite IH1, IH2. by apply Hid. }
    destruct (Hid w Hc) as [-> ->]. done.
Qed.

Lemma fire_idempotent_witness :
  let w := run empty_world
             [CreatePlanetComponent; ClickAddPlanet 0; ClickAddPlanet 0] in
  (forget_calls (Nat.iter 3 (PlanetComponent.ngOnDestroy 0) w) =
   forget_calls (PlanetComponent.ngOnDestroy 0 w)
   ∧ unhandled (Nat.iter 3 (PlanetComponent.ngOnDestroy 0) w) = unhandled w)
  ∧ (forget_calls (Nat.iter 3 (HeroDetailComponent.ngOnDestroy 0) w) =
     forget_calls (HeroDetailComponent.ngOnDestroy 0 w)
     ∧ unhandled (Nat.iter 3 (HeroDetailComponent.ngOnDestroy 0) w)
       = unhandled w).
Proof.
  apply (fire_idempotent
           (run empty_world
              [CreatePlanetComponent; ClickAddPlanet 0; ClickAddPlanet 0])
           0 3).
  - by eexists.
  - lia.
Defined.

(** C5.  Owners are independent.  Two distinct components never have the
    same [destroy$]; the observers of a component's [destroy$] are chains
    of that component alone; and destroying component [a] changes neither
    the state of any subscription of another component [b] nor [b]
    itself. *)
Theorem owners_independent w a b ca cb :
  reachable w →
  components w !! a = Some ca → components w !! b = Some cb → a ≠ b →
  destroy_of ca ≠ destroy_of cb
  ∧ (∀ sj sid,
       subjects w !! destroy_of ca = Some sj → sid ∈ Subject.observers sj →
       ∃ sub, subscriptions w !! sid = Some sub ∧ Subscription_owner sub = a)
  ∧ (∀ sid sub,
       subscriptions w !! sid = Some sub → Subscription_owner sub = b →
       subscriptions (step w (Destroy a)) !! sid = Some sub)
  ∧ components (step w (Destroy a)) !! b = Some cb.
Proof.
  intros Hw Ha Hb Hne. pose proof (reachable_wf w Hw) as Hwf. split_and!.
  - intros E. apply Hne. by eapply (wf_private w Hwf).
  - intros sj sid Hsj Hin. by eapply observers_owned.
  - intros sid sub Hs Ho. apply Destroy_frame; [done..|congruence].
  - assert (components (step w (Destroy a)) = components w) as ->; [|done].
    cbn. rewrite Ha. destruct ca as [c|c].
    + unfold PlanetComponent.ngOnDestroy. cbn. rewrite Ha.
      by destruct (Subject_next_silent (PlanetFields.destroy' c)
                     (mark_destroyed a w) (mark_destroyed_wf a w Hwf))
        as (-> & _).
    + unfold HeroDetailComponent.ngOnDestroy. cbn. rewrite Ha.
      by destruct (Subject_next_silent (HeroDetailFields.destroy' c)
                     (mark_destroyed a w) (mark_destroyed_wf a w Hwf))
        as (-> & _).
Qed.

Lemma owners_independent_witness :
  let w := run empty_world
             [CreatePlanetComponent; CreatePlanetComponent;
              ClickAddPlanet 0; ClickAddPlanet 1] in
  let ca := PlanetComponentInstance (PlanetFields.mk 0 None) in
  let cb := PlanetComponentInstance (PlanetFields.mk 1 None) in
  destroy_of ca ≠ destroy_of cb
  ∧ (∀ sj sid,
       subjects w !! destroy_of ca = Some sj → sid ∈ Subject.observers sj →
       ∃ sub, subscriptions w !! sid = Some sub ∧ Subscription_owner sub = 0)
  ∧ (∀ sid sub,
       subscriptions w !! sid = Some sub → Subscription_owner sub = 1 →
       subscriptions (step w (Destroy 0)) !! sid = Some sub)
  ∧ components (step w (Destroy 0)) !! 1 = Some cb.
Proof.
  apply (owners_independent
           (run empty_world
              [CreatePlanetComponent; CreatePlanetComponent;
               ClickAddPlanet 0; ClickAddPlanet 1])
           0 1 (PlanetComponentInstance (PlanetFields.mk 0 None))
           (PlanetComponentInstance (PlanetFields.mk 1 None))).
  - by eexists.
  - vm_compute. reflexivity.
  - vm_compute. reflexivity.
  - lia.
Defined.

(** * Destruction fires the signal *)

Lemma extends_refl w : extends w w.
Proof. split; eauto. Qed.

Lemma extends_trans w1 w2 w3 : extends w1 w2 → extends w2 w3 → extends w1 w3.
Proof.
  intros [S12 C12] [S23 C23]. split.
  - intros d sj (sj2 & H2 & L2)%S12. destruct (S23 d sj2 H2) as (sj3 & H3 & L3).
    exists sj3. split; [done|lia].
  - intros o c (c2 & H2 & E2)%C12. destruct (C23 o c2 H2) as (c3 & H3 & E3).
    exists c3. split; [done|congruence].
Qed.

Lemma settle_extends sid sub eff errs w : extends w (settle sid sub eff errs w).
Proof.
  split.
  - intros d sj Hsj.
    destruct (settle_subjects_lookup_inv sid sub eff errs w d sj Hsj)
      as (sj' & Hsj' & Hn & _).
    exists sj'. split; [done|lia].
  - intros o c Hc. rewrite settle_components. by apply lookup_assigned_inv.
Qed.

Lemma notify_extends d sid w : extends w (notify d sid w).
Proof.
  unfold notify. destruct (subscriptions w !! sid) as [sub|];
    [|apply extends_refl].
  destruct (Subscription_signal d sub) as [[sub' eff] errs].
  apply settle_extends.
Qed.

Lemma notify_all_extends d l w :
  extends w (foldl (fun w sid => notify d sid w) w l).
Proof.
  revert w. induction l as [|x l IH]; intros w; cbn; [apply extends_refl|].
  eapply extends_trans; [apply notify_extends|apply IH].
Qed.

(** [next()] is counted on the subject whether or not anyone listens. *)
Lemma Subject_next_counts d sj w :
  subjects w !! d = Some sj →
  ∃ sj', subjects (Subject_next d w) !! d = Some sj'
         ∧ S (Subject.nexts sj) ≤ Subject.nexts sj'.
Proof.
  intros Hsj. unfold Subject_next. rewrite Hsj.
  match goal with
  | |- context [foldl _ ?w0 _] =>
      destruct (notify_all_extends d (Subject.observers sj) w0) as [Hs _]
  end.
  apply (Hs d (Subject.called sj)). cbn. apply lookup_insert_eq.
Qed.

Lemma Subject_next_extends d w : extends w (Subject_next d w).
Proof.
  unfold Subject_next. destruct (subjects w !! d) as [sj|] eqn:Hsj;
    [|apply extends_refl].
  eapply extends_trans; [|apply notify_all_extends]. split; cbn; [|by eauto].
  intros d' sj' Hsj'. destruct (decide (d' = d)) as [->|Hne].
  - simplify_eq. rewrite lookup_insert_eq. eexists. split; [done|]. cbn. lia.
  - rewrite lookup_insert_ne by done. eauto.
Qed.

Lemma subscribe_extends {R T} (inj : Subscribed R T → Subscription) this
    (o : Observable Assignment R T) obs w :
  extends w (subscribe inj this o obs w).
Proof.
  unfold subscribe.
  destruct (Subscriber_new (operators o) obs) as [[st eff] errs].
  eapply extends_trans; [|apply settle_extends]. split; cbn; [|by eauto].
  generalize (pipe_notifiers (operators o)). intros ds.
  induction ds as [|d0 ds IH]; intros d sj Hsj; cbn; [by eauto|].
  destruct (IH d sj Hsj) as (sj1 & Hsj1 & Hle).
  rewrite lookup_alter. case_decide; [subst|by eauto].
  rewrite Hsj1. cbn. eexists. split; [done|]. done.
Qed.

Lemma push_mutation_extends sid n w : extends w (push_mutation sid n w).
Proof.
  unfold push_mutation.
  destruct (subscriptions w !! sid) as [[s|s]|]; try apply extends_refl.
  destruct (Subscriber_push _ _ _ _) as [[st eff] errs].
  apply settle_extends.
Qed.

Lemma push_query_extends sid n w : extends w (push_query sid n w).
Proof.
  unfold push_query.
  destruct (subscriptions w !! sid) as [[s|s]|]; try apply extends_refl.
  destruct (Subscriber_push _ _ _ _) as [[st eff] errs].
  apply settle_extends.
Qed.

Lemma set_component_extends o c c' w :
  components w !! o = Some c → destroy_of c' = destroy_of c →
  extends w (set_component o c' w).
Proof.
  intros Hc Hd. split; cbn; [by eauto|].
  intros o1 c1 H1. destruct (decide (o1 = o)) as [->|Hne].
  - rewrite lookup_insert_eq. simplify_eq. eauto.
  - rewrite lookup_insert_ne by done. eauto.
Qed.

Lemma new_component_extends (make : nat → Component) w :
  extends w (let '(d, w) := new_Subject w in
             set_component (fresh (dom (components w))) (make d) w).
Proof.
  cbn. split; cbn.
  - intros d sj Hsj. exists sj. split; [|done].
    rewrite lookup_insert_ne; [done|]. intros E.
    rewrite <- E, fresh_subject in Hsj. done.
  - intros o c Hc. exists c. split; [|done].
    rewrite lookup_insert_ne; [done|]. intros E.
    rewrite <- E, fresh_component in Hc. done.
Qed.

Lemma step_extends w e : extends w (step w e).
Proof.
  destruct e as [| |o|o|o|sid n|sid n]; cbn.
  - apply (new_component_extends
             (fun d => PlanetComponentInstance (PlanetFields.mk d None))).
  - apply (new_component_extends
             (fun d => HeroDetailComponentInstance
                         (HeroDetailFields.mk d None None JsNull))).
  - destruct (components w !! o) as [[c|c]|] eqn:Hc; [| |apply extends_refl].
    + unfold PlanetComponent.ngOnInit. rewrite Hc.
      by eapply set_component_extends.
    + unfold HeroDetailComponent.ngOnInit. rewrite Hc.
      eapply extends_trans; [|apply subscribe_extends].
      by eapply set_component_extends.
  - destruct (components w !! o) as [[c|c]|] eqn:Hc; [| |apply extends_refl].
    + unfold PlanetComponent.ngOnDestroy. cbn. rewrite Hc.
      apply (Subject_next_extends _ (mark_destroyed o w)).
    + unfold HeroDetailComponent.ngOnDestroy. cbn. rewrite Hc.
      apply (Subject_next_extends _ (mark_destroyed o w)).
  - unfold PlanetComponent.addPlanet.
    destruct (components w !! o) as [[c|c]|] eqn:Hc; try apply extends_refl.
    apply subscribe_extends.
  - apply push_mutation_extends.
  - apply push_query_extends.
Qed.

(** Destroying a component calls [next()] on its [destroy$]. *)
Lemma Destroy_fires w o c :
  wf w → components w !! o = Some c →
  o ∈ destroyed (step w (Destroy o))
  ∧ ∃ sj sj', subjects w !! destroy_of c = Some sj
              ∧ subjects (step w (Destroy o)) !! destroy_of c = Some sj'
              ∧ S (Subject.nexts sj) ≤ Subject.nexts sj'.
Proof.
  intros Hwf Hc. destruct (wf_allocated w Hwf o c Hc) as [sj Hsj].
  assert (step w (Destroy o) = Subject_next (destroy_of c) (mark_destroyed o w))
    as ->.
  { cbn. rewrite Hc. destruct c as [c|c]; cbn.
    - unfold PlanetComponent.ngOnDestroy. cbn. by rewrite Hc.
    - unfold HeroDetailComponent.ngOnDestroy. cbn. by rewrite Hc. }
  split.
  - destruct (Subject_next_silent (destroy_of c) (mark_destroyed o w)
                (mark_destroyed_wf o w Hwf)) as (_ & _ & ->).
    cbn. set_solver.
  - destruct (Subject_next_counts (destroy_of c) sj (mark_destroyed o w))
      as (sj' & Hsj' & Hle); [done|].
    by exists sj, sj'.
Qed.

Lemma step_destroyed w e o :
  wf w → o ∈ destroyed (step w e) → o ∈ destroyed w ∨ e = Destroy o.
Proof.
  intros Hwf. destruct e as [| |o'|o'|o'|sid n|sid n]; cbn.
  - auto.
  - auto.
  - destruct (components w !! o') as [[c|c]|] eqn:Hc; [| |by auto].
    + unfold PlanetComponent.ngOnInit. rewrite Hc. cbn. auto.
    + unfold HeroDetailComponent.ngOnInit. rewrite Hc. unfold subscribe.
      destruct (Subscriber_new _ _) as [[st eff] errs].
      rewrite settle_destroyed. cbn. auto.
  - destruct (components w !! o') as [c|] eqn:Hc; [|by auto].
    assert (destroyed (match c with
                       | PlanetComponentInstance _ =>
                           PlanetComponent.ngOnDestroy o' (mark_destroyed o' w)
                       | HeroDetailComponentInstance _ =>
                           HeroDetailComponent.ngOnDestroy o'
                             (mark_destroyed o' w)
                       end) = {[o']} ∪ destroyed w) as ->.
    { destruct c as [c|c].
      - unfold PlanetComponent.ngOnDestroy. cbn. rewrite Hc.
        by destruct (Subject_next_silent (PlanetFields.destroy' c)
                       (mark_destroyed o' w) (mark_destroyed_wf o' w Hwf))
          as (_ & _ & ->).
      - unfold HeroDetailComponent.ngOnDestroy. cbn. rewrite Hc.
        by destruct (Subject_next_silent (HeroDetailFields.destroy' c)
                       (mark_destroyed o' w) (mark_destroyed_wf o' w Hwf))
          as (_ & _ & ->). }
    intros [->%elem_of_singleton|?]%elem_of_union; auto.
  - unfold PlanetComponent.addPlanet.
    destruct (components w !! o') as [[c|c]|] eqn:Hc; [|by auto..].
    unfold subscribe. destruct (Subscriber_new _ _) as [[st eff] errs].
    rewrite settle_destroyed. cbn. auto.
  - unfold push_mutation.
    destruct (subscriptions w !! sid) as [[s|s]|]; [|by auto..].
    destruct (Subscriber_push _ _ _ _) as [[st eff] errs].
    rewrite settle_destroyed. auto.
  - unfold push_query.
    destruct (subscriptions w !! sid) as [[s|s]|]; [by auto| |by auto].
    destruct (Subscriber_push _ _ _ _) as [[st eff] errs].
    rewrite settle_destroyed. auto.
Qed.

Lemma step_fired w e : wf w → fired w → fired (step w e).
Proof.
  intros Hwf Hf o Ho. destruct (step_extends w e) as [Hsubj Hcomp].
  destruct (step_destroyed w e o Hwf Ho) as [Hold| ->].
  - destruct (Hf o Hold) as (c & sj & Hc & Hsj & Hn).
    destruct (Hcomp o c Hc) as (c' & Hc' & Hd).
    destruct (Hsubj _ sj Hsj) as (sj' & Hsj' & Hle).
    exists c', sj'. rewrite Hd. split_and!; [done..|lia].
  - destruct (components w !! o) as [c|] eqn:Hc.
    + destruct (Destroy_fires w o c Hwf Hc) as (_ & sj & sj' & Hsj & Hsj' & Hle).
      destruct (Hcomp o c Hc) as (c' & Hc' & Hd).
      exists c', sj'. rewrite Hd. split_and!; [done..|lia].
    + cbn in Ho. rewrite Hc in Ho.
      destruct (Hf o Ho) as (c & _ & Hc' & _). congruence.
Qed.

Lemma reachable_fired w : reachable w → fired w.
Proof.
  intros [es ->]. induction es as [|e es IH] using rev_ind.
  - intros o Ho. cbn in Ho. set_solver.
  - unfold run. rewrite foldl_app. cbn. apply step_fired; [|exact IH].
    apply run_wf, empty_world_wf.
Qed.

(** C8.  Destruction fires unconditionally.  In every world the components
    can reach, a component that Angular has destroyed (of either class) has
    had [next()] called on its [destroy$]; and each destruction calls it,
    whatever the observers of the subject are, none included. *)
Theorem destroyed_implies_fired w o :
  reachable w →
  (o ∈ destroyed w →
   ∃ c sj, components w !! o = Some c
           ∧ subjects w !! destroy_of c = Some sj
           ∧ 1 ≤ Subject.nexts sj)
  ∧ (∀ c, components w !! o = Some c →
       o ∈ destroyed (step w (Destroy o))
       ∧ ∃ sj sj', subjects w !! destroy_of c = Some sj
                   ∧ subjects (step w (Destroy o)) !! destroy_of c = Some sj'
                   ∧ S (Subject.nexts sj) ≤ Subject.nexts sj').
Proof.
  intros Hw. split.
  - apply (reachable_fired w Hw).
  - intros c Hc. by apply Destroy_fires; [apply reachable_wf|].
Qed.

Lemma destroyed_implies_fired_witness :
  let w := run empty_world [CreateHeroDetailComponent; Destroy 0] in
  (0 ∈ destroyed w →
   ∃ c sj, components w !! 0 = Some c
           ∧ subjects w !! destroy_of c = Some sj
           ∧ 1 ≤ Subject.nexts sj)
  ∧ (∀ c, components w !! 0 = Some c →
       0 ∈ destroyed (step w (Destroy 0))
       ∧ ∃ sj sj', subjects w !! destroy_of c = Some sj
                   ∧ subjects (step w (Destroy 0)) !! destroy_of c = Some sj'
                   ∧ S (Subject.nexts sj) ≤ Subject.nexts sj').
Proof.
  apply (destroyed_implies_fired
           (run empty_world [CreateHeroDetailComponent; Destroy 0]) 0).
  by eexists.
Defined.

(** * The planets field of HeroDetailComponent *)

Lemma later_refl sub : later sub sub.
Proof. by repeat split. Qed.

Lemma later_trans s1 s2 s3 : later s1 s2 → later s2 s3 → later s1 s3.
Proof.
  intros (O12 & N12 & B12 & C12) (O23 & N23 & B23 & C23).
  split_and!; [congruence|congruence|by auto|].
  intros Hc. pose proof (C12 Hc) as ->. by apply C23.
Qed.

Lemma notify_origin d x w sid sub' :
  subscriptions (notify d x w) !! sid = Some sub' →
  ∃ sub, subscriptions w !! sid = Some sub ∧ later sub sub'.
Proof.
  unfold notify. destruct (subscriptions w !! x) as [sub0|] eqn:Hx.
  - destruct (Subscription_signal d sub0) as [[sub1 eff] errs] eqn:Hsig.
    rewrite settle_subscriptions.
    destruct (decide (sid = x)) as [->|Hne].
    + rewrite lookup_insert_eq. intros ?; simplify_eq.
      exists sub0. split; [done|]. by eapply Subscription_signal_later.
    + rewrite lookup_insert_ne by done. intros Hs.
      exists sub'. split; [done|apply later_refl].
  - intros Hs. exists sub'. split; [done|apply later_refl].
Qed.

Lemma notify_all_origin d l w sid sub' :
  subscriptions (foldl (fun w sid => notify d sid w) w l) !! sid = Some sub' →
  ∃ sub, subscriptions w !! sid = Some sub ∧ later sub sub'.
Proof.
  revert w. induction l as [|x l IH]; intros w; cbn.
  - intros Hs. exists sub'. split; [done|apply later_refl].
  - intros (sub1 & (sub & Hs & L1)%notify_origin & L2)%IH.
    exists sub. split; [done|]. by eapply later_trans.
Qed.

Lemma Subject_next_origin d w sid sub' :
  subscriptions (Subject_next d w) !! sid = Some sub' →
  ∃ sub, subscriptions w !! sid = Some sub ∧ later sub sub'.
Proof.
  unfold Subject_next. destruct (subjects w !! d) as [sj|].
  - by intros (sub & Hs & L)%notify_all_origin; eauto.
  - intros Hs. exists sub'. split; [done|apply later_refl].
Qed.

Lemma subscribe_origin {R T} (inj : Subscribed R T → Subscription) this
    (o : Observable Assignment R T) obs w sid sub' :
  (∀ s, Subscription_owner (inj s) = owner s) →
  subscriptions (subscribe inj this o obs w) !! sid = Some sub' →
  subscriptions w !! sid = Some sub' ∨ Subscription_owner sub' = this.
Proof.
  intros Ho. rewrite subscribe_subscriptions.
  destruct (decide (sid = fresh (dom (subscriptions w)))) as [->|Hne].
  - rewrite lookup_insert_eq. intros ?; simplify_eq. right. by rewrite Ho.
  - rewrite lookup_insert_ne by done. auto.
Qed.

Lemma subscribe_components {R T} (inj : Subscribed R T → Subscription) this
    (o : Observable Assignment R T) obs w other :
  (∀ s, Subscription_owner (inj s) = owner s) →
  other ≠ this →
  components (subscribe inj this o obs w) !! other = components w !! other.
Proof.
  intros Ho Hne. unfold subscribe.
  destruct (Subscriber_new (operators o) obs) as [[st eff] errs].
  rewrite settle_components, Ho. cbn. by rewrite lookup_alter_ne.
Qed.

Lemma push_components {R T} (inj : Subscribed R T → Subscription)
    (s : Subscribed R T) n sid this w :
  (∀ s, Subscription_owner (inj s) = owner s) →
  (∀ s, Subscription_closed (inj s) = closed (state s)) →
  owner_closed this w → subscriptions w !! sid = Some (inj s) →
  components
    (let '(st, eff, errs) :=
       Subscriber_push (chain s) (observer s) (state s) n in
     settle sid (inj (with_state s st)) eff errs w) !! this
  = components w !! this.
Proof.
  intros Ho Hc Hclosed Hs.
  destruct (decide (owner s = this)) as [E|Hne].
  - rewrite Subscriber_push_closed.
    + by rewrite settle_components, alter_nothing.
    + rewrite <- Hc. apply (Hclosed sid); [done|]. by rewrite Ho.
  - destruct (Subscriber_push _ _ _ _) as [[st eff] errs].
    rewrite settle_components, Ho. cbn. by rewrite lookup_alter_ne.
Qed.

Lemma push_origin {R T} (inj : Subscribed R T → Subscription)
    (s : Subscribed R T) n sid w x sub' :
  (∀ s, Subscription_owner (inj s) = owner s) →
  (∀ s, Subscription_notifiers (inj s) = pipe_notifiers (chain s)) →
  (∀ s, Subscription_bare (inj s) ↔ observer s = bare) →
  (∀ s, Subscription_closed (inj s) = closed (state s)) →
  subscriptions w !! sid = Some (inj s) →
  subscriptions
    (let '(st, eff, errs) :=
       Subscriber_push (chain s) (observer s) (state s) n in
     settle sid (inj (with_state s st)) eff errs w) !! x = Some sub' →
  ∃ sub, subscriptions w !! x = Some sub ∧ later sub sub'.
Proof.
  intros Ho Hn Hb Hc Hs.
  destruct (Subscriber_push _ _ _ _) as [[st eff] errs] eqn:Hpush.
  rewrite settle_subscriptions. destruct (decide (x = sid)) as [->|Hne].
  - rewrite lookup_insert_eq. intros ?; simplify_eq.
    exists (inj s). split; [done|]. by eapply push_later.
  - rewrite lookup_insert_ne by done. intros Hx.
    exists sub'. split; [done|apply later_refl].
Qed.

(** While [ngOnInit] does not run again on a HeroDetailComponent whose
    chains are all closed, the chains stay closed and no field of the
    component changes. *)
Lemma step_owner_closed w e this c :
  wf w → components w !! this = Some (HeroDetailComponentInstance c) →
  owner_closed this w → not_init this e = true →
  owner_closed this (step w e)
  ∧ components (step w e) !! this = Some (HeroDetailComponentInstance c).
Proof.
  intros Hwf Hc Hclosed Hq.
  assert (∀ w', (∀ sid sub', subscriptions w' !! sid = Some sub' →
                   ∃ sub, subscriptions w !! sid = Some sub ∧ later sub sub') →
                owner_closed this w') as Hlater.
  { intros w' Horigin sid sub' (sub & Hs & (O & _ & _ & C))%Horigin Ho.
    rewrite (C (Hclosed sid sub Hs ltac:(congruence))).
    apply (Hclosed sid sub Hs). congruence. }
  destruct e as [| |o|o|o|sid n|sid n]; cbn in *.
  - split; [done|]. rewrite lookup_insert_ne; [done|]. intros E.
    rewrite <- E, fresh_component in Hc. done.
  - split; [done|]. rewrite lookup_insert_ne; [done|]. intros E.
    rewrite <- E, fresh_component in Hc. done.
  - apply negb_true_iff, Nat.eqb_neq in Hq.
    destruct (components w !! o) as [[c0|c0]|] eqn:Hco; [| |done].
    + unfold PlanetComponent.ngOnInit. rewrite Hco. cbn. split; [done|].
      by rewrite lookup_insert_ne.
    + unfold HeroDetailComponent.ngOnInit. rewrite Hco. split.
      * intros x sub' Hx Ho.
        apply subscribe_origin in Hx as [Hs|Ho']; [|congruence|done].
        by apply (Hclosed x sub').
      * rewrite subscribe_components by done. cbn.
        by rewrite lookup_insert_ne.
  - destruct (components w !! o) as [c0|] eqn:Hco; [|done].
    assert (match c0 with
            | PlanetComponentInstance _ =>
                PlanetComponent.ngOnDestroy o (mark_destroyed o w)
            | HeroDetailComponentInstance _ =>
                HeroDetailComponent.ngOnDestroy o (mark_destroyed o w)
            end = Subject_next (destroy_of c0) (mark_destroyed o w)) as ->.
    { destruct c0 as [c0|c0]; cbn.
      - unfold PlanetComponent.ngOnDestroy. cbn. by rewrite Hco.
      - unfold HeroDetailComponent.ngOnDestroy. cbn. by rewrite Hco. }
    split.
    + apply Hlater. intros x sub' Hx. by apply Subject_next_origin in Hx.
    + by destruct (Subject_next_silent (destroy_of c0) (mark_destroyed o w)
                     (mark_destroyed_wf o w Hwf)) as (-> & _).
  - unfold PlanetComponent.addPlanet.
    destruct (components w !! o) as [[c0|c0]|] eqn:Hco; [|done..].
    assert (o ≠ this) as Hne by congruence. split.
    + intros x sub' Hx Ho.
      apply subscribe_origin in Hx as [Hs|Ho']; [|congruence|done].
      by apply (Hclosed x sub').
    + by rewrite subscribe_components.
  - unfold push_mutation.
    destruct (subscriptions w !! sid) as [[s|s]|] eqn:Hs; [|done..]. split.
    + apply Hlater. intros x sub' Hx.
      by apply (push_origin MutationSubscription s n sid w x sub').
    + by rewrite (push_components MutationSubscription s n sid this w).
  - unfold push_query.
    destruct (subscriptions w !! sid) as [[s|s]|] eqn:Hs; [done| |done]. split.
    + apply Hlater. intros x sub' Hx.
      by apply (push_origin QuerySubscription s n sid w x sub').
    + by rewrite (push_components QuerySubscription s n sid this w).
Qed.

Lemma run_owner_closed w es this c :
  wf w → components w !! this = Some (HeroDetailComponentInstance c) →
  owner_closed this w → forallb (not_init this) es = true →
  components (run w es) !! this = Some (HeroDetailComponentInstance c).
Proof.
  revert w. induction es as [|e es IH]; intros w Hwf Hc Hclosed Hq; cbn in *;
    [done|].
  apply andb_true_iff in Hq as [Hq Hqs].
  destruct (step_owner_closed w e this c Hwf Hc Hclosed Hq) as [Hclosed' Hc'].
  apply IH; [by apply step_wf|done..].
Qed.

(** C10.  Once a HeroDetailComponent has been destroyed, its [planets]
    field is never assigned again, whatever the source of [getAllPlanets]
    emits afterwards (provided Angular does not run [ngOnInit] on the
    destroyed component once more). *)
Theorem planets_frozen_after_destroy w this c es :
  reachable w →
  components w !! this = Some (HeroDetailComponentInstance c) →
  forallb (not_init this) es = true →
  ∃ c', components (run (step w (Destroy this)) es) !! this
        = Some (HeroDetailComponentInstance c')
        ∧ HeroDetailFields.planets c' = HeroDetailFields.planets c.
Proof.
  intros Hw Hc Hq. pose proof (reachable_wf w Hw) as Hwf.
  exists c. split; [|done].
  apply run_owner_closed; [by apply step_wf| | |done].
  - assert (not_init this (Destroy this) = true) as Hd by done.
    (* the destruction itself assigns nothing *)
    cbn. rewrite Hc. unfold HeroDetailComponent.ngOnDestroy. cbn. rewrite Hc.
    by destruct (Subject_next_silent (HeroDetailFields.destroy' c)
                   (mark_destroyed this w) (mark_destroyed_wf this w Hwf))
      as (-> & _).
  - intros sid sub' Hs' Ho.
    assert (∃ sub, subscriptions w !! sid = Some sub ∧ later sub sub')
      as (sub & Hs & (O & _)).
    { cbn in Hs'. rewrite Hc in Hs'.
      unfold HeroDetailComponent.ngOnDestroy in Hs'. cbn in Hs'.
      rewrite Hc in Hs'. by apply Subject_next_origin in Hs'. }
    destruct (Destroy_closes w this sid sub Hwf Hs ltac:(congruence))
      as (sub1 & Hs1 & Hc1 & _).
    congruence.
Qed.

Lemma planets_frozen_after_destroy_witness :
  let w := run empty_world
             [CreateHeroDetailComponent; Init 0;
              QueryEmits 0 (Next (mkResult (JsValue [earth])))] in
  ∃ c', components
          (run (step w (Destroy 0))
               [QueryEmits 0 (Next (mkResult (JsValue [earth; earth])));
                Destroy 0; CreatePlanetComponent; ClickAddPlanet 1]) !! 0
        = Some (HeroDetailComponentInstance c')
        ∧ HeroDetailFields.planets c' = JsValue [earth].
Proof.
  apply (planets_frozen_after_destroy
           (run empty_world
              [CreateHeroDetailComponent; Init 0;
               QueryEmits 0 (Next (mkResult (JsValue [earth])))])
           0
           (HeroDetailFields.mk 0
              (Some (pipe (mkObservable RouteParams pipe_end)
                 pipe[ filter (fun param =>
                                 strict_ne_null (param_get param "id"));
                       map (fun param => param_get param "id");
                       tap (fun heroId =>
                              assign_hero'
                                (HeroRepositoryService.getHero heroId)) ]))
              None (JsValue [earth]))
           [QueryEmits 0 (Next (mkResult (JsValue [earth; earth])));
            Destroy 0; CreatePlanetComponent; ClickAddPlanet 1]).
  - by eexists.
  - vm_compute. reflexivity.
  - reflexivity.
Defined.

(** The proviso is needed.  When [ngOnInit] runs again on a destroyed
    HeroDetailComponent it subscribes a new chain, which the signal that
    has fired does not close, and the next emission of [getAllPlanets] on
    that chain assigns [planets]. *)
Lemma planets_assigned_after_destroy_counterexample :
  let w := run empty_world [CreateHeroDetailComponent; Init 0; Destroy 0] in
  let w' := run w [Init 0; QueryEmits 1 (Next (mkResult (JsValue [earth])))] in
  0 ∈ destroyed w
  ∧ subjects w !! 0 = Some (Subject.mk [] 1)
  ∧ (∃ c, components w !! 0 = Some (HeroDetailComponentInstance c)
          ∧ HeroDetailFields.planets c = JsNull)
  ∧ (∃ c', components w' !! 0 = Some (HeroDetailComponentInstance c')
           ∧ HeroDetailFields.planets c' = JsValue [earth]).
Proof.
  split_and!.
  - vm_compute. set_solver.
  - vm_compute. reflexivity.
  - eexists. split; [vm_compute; reflexivity|reflexivity].
  - eexists. split; [vm_compute; reflexivity|reflexivity].
Qed.

(** * The order of the two conditions in the mutation chain *)

Lemma orders_agree_step d o a b x :
  agree a b →
  agree (Subscriber_step (addPlanet_chain d) o a x)
        (Subscriber_step (addPlanet_chain_swapped d) o b x).
Proof.
  destruct a as [[[c1 ss1 r1] e1] u1], b as [[[c2 ss2 r2] e2] u2].
  intros [Hout Hseen]. unfold outcome in Hout. cbn in Hout, Hseen.
  simplify_eq. destruct c2.
  { destruct x; cbn; by split. }
  destruct Hseen as [-> ->]; [done|].
  destruct x as [[r| |]|d'].
  - destruct r as [[| |v]]; cbn; split; try done; cbn; by intros.
  - cbn. split; [done|]. by intros.
  - cbn. split; [done|]. by intros.
  - unfold Subscriber_step, Subscriber_signal. cbn.
    case_bool_decide; cbn; split; try done; cbn; by intros.
Qed.

Lemma orders_agree_run d o xs :
  agree (Subscriber_run (addPlanet_chain d) o xs)
        (Subscriber_run (addPlanet_chain_swapped d) o xs).
Proof.
  unfold Subscriber_run.
  assert (agree (Subscriber_new (addPlanet_chain d) o)
                (Subscriber_new (addPlanet_chain_swapped d) o)) as H0.
  { by split. }
  revert H0. generalize (Subscriber_new (addPlanet_chain d) o).
  generalize (Subscriber_new (addPlanet_chain_swapped d) o).
  induction xs as [|x xs IH]; intros b a Hab; cbn; [done|].
  by apply IH, orders_agree_step.
Qed.

(** C9.  In the chain [addPlanet] subscribes, the emission limit take(1)
    stands before the guard takeUntil(destroy$); and the chain with the two
    in the other order shows the owner the same, after any sequence of
    source notifications and subject emissions, with any observer: the same
    values received, the same callbacks run, the same errors left
    unhandled, and closed at the same moments.  The first-emission and the
    destroy-before-emission scenarios are two such sequences. *)
Theorem limit_before_signal_orders_agree w this c o xs :
  components w !! this = Some (PlanetComponentInstance c) →
  let d := PlanetFields.destroy' c in
  subscriptions (PlanetComponent.addPlanet this w)
    !! fresh (dom (subscriptions w))
  = Some (MutationSubscription
            (mkSubscribed this
               (pipe_app (operators (PlanetRepositoryService.addPlanet earth))
                         pipe[ take 1; takeUntil d ])
               bare (mkSubscriber false [0; 0; 0; 0] [])))
  ∧ outcome (Subscriber_run (addPlanet_chain d) o xs)
    = outcome (Subscriber_run (addPlanet_chain_swapped d) o xs)
  ∧ outcome (Subscriber_run (addPlanet_chain d) o
               [FromSource (Next (mkResult (JsValue earth)))])
    = (true, [JsValue earth],
       match next o with Some f => [f (JsValue earth)] | None => [] end
       ++ match complete o with Some e => [e] | None => [] end, [])
  ∧ outcome (Subscriber_run (addPlanet_chain d) o
               [FromSubject d; FromSource (Next (mkResult (JsValue earth)))])
    = (true, [], match complete o with Some e => [e] | None => [] end, []).
Proof.
  intros Hc d. split_and!.
  - rewrite (addPlanet_subscriptions w this c Hc). apply lookup_insert_eq.
  - apply orders_agree_run.
  - cbn. by rewrite app_nil_r.
  - unfold Subscriber_run, Subscriber_step, Subscriber_signal. cbn.
    rewrite bool_decide_eq_true_2 by done. cbn. by rewrite !app_nil_r.
Qed.

Lemma limit_before_signal_orders_agree_witness :
  let w := run empty_world [CreatePlanetComponent] in
  let xs := [FromSource (Next (mkResult JsNull)); FromSubject 0;
             FromSource (Next (mkResult (JsValue earth)))] in
  subscriptions (PlanetComponent.addPlanet 0 w) !! fresh (dom (subscriptions w))
  = Some (MutationSubscription
            (mkSubscribed 0
               (pipe_app (operators (PlanetRepositoryService.addPlanet earth))
                         pipe[ take 1; takeUntil 0 ])
               bare (mkSubscriber false [0; 0; 0; 0] [])))
  ∧ outcome (Subscriber_run (addPlanet_chain 0) bare xs)
    = outcome (Subscriber_run (addPlanet_chain_swapped 0) bare xs)
  ∧ outcome (Subscriber_run (addPlanet_chain 0) bare
               [FromSource (Next (mkResult (JsValue earth)))])
    = (true, [JsValue earth], [] ++ [], [])
  ∧ outcome (Subscriber_run (addPlanet_chain 0) bare
               [FromSubject 0; FromSource (Next (mkResult (JsValue earth)))])
    = (true, [], [], []).
Proof.
  apply (limit_before_signal_orders_agree
           (run empty_world [CreatePlanetComponent]) 0 (PlanetFields.mk 0 None)
           bare
           [FromSource (Next (mkResult JsNull)); FromSubject 0;
            FromSource (Next (mkResult (JsValue earth)))]).
  vm_compute. reflexivity.
Defined.

(** * What the query operations deliver *)



(** The loose comparison of [getAllPlanets] also filters an emission whose
    [data] is undefined. *)
Lemma getAllPlanets_filters_undefined {Effect : Type}
    (o : Observer Effect (nullable (list Planet.t))) s :
  received_after (operators PlanetRepositoryService.getAllPlanets) o s
                 (Next (mkResult JsUndefined))
  = received s.
Proof. unfold received_after, Subscriber_push. by destruct (closed s). Qed.

(** The strict comparison of [getHerosByType] filters null only: an
    emission whose [data] is undefined is delivered. *)
Lemma getHerosByType_delivers_undefined {Effect : Type} (heroType : string)
    (o : Observer Effect (nullable (list Hero.t))) :
  ∃ heros,
    HeroRepositoryService.getHerosByType heroType = Some heros
    ∧ received_after (operators heros) o (Subscriber_new (operators heros) o).1.1
                     (Next (mkResult JsUndefined))
      = [JsUndefined].
Proof. eexists. split; reflexivity. Qed.

(** * Errors of the mutation *)

(** The call site supplies no handling.  The observer [addPlanet]
    subscribes with has no [next] and no [error] handler: when the source
    of the mutation emits the error "Network error", the component is left
    as it was and the error is in RxJS's report of unhandled errors. *)
Lemma addPlanet_error_is_not_handled_counterexample :
  let w := run empty_world [CreatePlanetComponent; ClickAddPlanet 0] in
  let w' := step w (MutationEmits 0 (Error "Network error")) in
  (∃ s, subscriptions w !! 0 = Some (MutationSubscription s)
        ∧ next (observer s) = None ∧ error (observer s) = None)
  ∧ unhandled w' = ["Network error"]
  ∧ components w' = components w.
Proof.
  split_and!.
  - eexists. split_and!; [vm_compute; reflexivity|reflexivity..].
  - vm_compute. reflexivity.
  - vm_compute. reflexivity.
Qed.

(** * Two facts about chains in general *)

Section ChainFacts.
Context {Effect R T : Type}.

Lemma Subscriber_step_closed (p : Pipe Effect R T) o s eff errs x :
  closed s = true → Subscriber_step p o (s, eff, errs) x = (s, eff, errs).
Proof.
  intros Hc. unfold Subscriber_step.
  destruct x; rewrite ?Subscriber_push_closed, ?Subscriber_signal_closed
    by done; by rewrite !app_nil_r.
Qed.

Lemma Subscriber_steps_closed (p : Pipe Effect R T) o s eff errs xs :
  closed s = true →
  foldl (Subscriber_step p o) (s, eff, errs) xs = (s, eff, errs).
Proof.
  intros Hc. induction xs as [|x xs IH]; [done|].
  change (foldl (Subscriber_step p o)
            (Subscriber_step p o (s, eff, errs) x) xs = (s, eff, errs)).
  by rewrite Subscriber_step_closed.
Qed.

(** Whatever the operators of a pipe are, a [takeUntil(d)] among them
    guards the whole chain: once the subject at [d] has emitted, the chain
    is closed and nothing that follows changes its state, runs a callback
    or reports an error.  This covers the chains of both versions of
    [getAllPlanets]. *)
Lemma takeUntil_guards (p : Pipe Effect R T) o d xs ys :
  d ∈ pipe_notifiers p →
  closed (Subscriber_run p o (xs ++ [FromSubject d])).1.1 = true
  ∧ Subscriber_run p o (xs ++ FromSubject d :: ys)
    = Subscriber_run p o (xs ++ [FromSubject d]).
Proof.
  intros Hd. unfold Subscriber_run. rewrite !foldl_app. cbn.
  destruct (foldl (Subscriber_step p o) (Subscriber_new p o) xs)
    as [[s eff] errs].
  assert (closed (Subscriber_step p o (s, eff, errs) (FromSubject d)).1.1 = true)
    as Hc.
  { destruct (closed s) eqn:Hs.
    - by rewrite Subscriber_step_closed.
    - unfold Subscriber_step.
      by destruct (Subscriber_signal_listening p o d s Hs Hd) as [ss ->]. }
  split; [done|].
  destruct (Subscriber_step p o (s, eff, errs) (FromSubject d)) as [[s' eff'] errs'].
  by apply Subscriber_steps_closed.
Qed.

End ChainFacts.

(** The chain of [addPlanet] hands its observer at most one value, whatever
    its source emits and whenever the subjects fire. *)
Lemma addPlanet_chain_at_most_one d o xs :
  length (received (Subscriber_run (addPlanet_chain d) o xs).1.1) ≤ 1.
Proof.
  unfold Subscriber_run.
  assert (∀ a : Subscriber (nullable Planet.t) * list Assignment * list string,
            (closed a.1.1 = false → seen a.1.1 = [0; 0; 0; 0] ∧ received a.1.1 = [])
            ∧ length (received a.1.1) ≤ 1 →
            length (received (foldl (Subscriber_step (addPlanet_chain d) o) a xs).1.1)
            ≤ 1) as Hinv.
  { induction xs as [|x xs IH]; intros a [Hopen Hlen]; cbn; [done|].
    apply IH. destruct a as [[[c ss r] e] u]. cbn in Hopen, Hlen.
    destruct c.
    { rewrite Subscriber_step_closed by done. by split. }
    destruct Hopen as [-> ->]; [done|].
    destruct x as [[r| |]|d'].
    - destruct r as [[| |v]]; cbn; split; try done; cbn; by intros.
    - cbn. split; [done|]. cbn. lia.
    - cbn. split; [done|]. cbn. lia.
    - unfold Subscriber_step, Subscriber_signal. cbn.
      case_bool_decide; cbn; split; try done; cbn; by intros. }
  apply Hinv. cbn. split; [done|lia].
Qed.

(** * The two scenarios of the specification, run *)

(** Owner constructed, mutation attached, the source emits Earth and then a
    second value: the observer has received Earth alone. *)
Example scenario_first_result_wins :
  let w := run empty_world
             [CreatePlanetComponent; ClickAddPlanet 0;
              MutationEmits 0 (Next (mkResult (JsValue earth)));
              MutationEmits 0 (Next (mkResult (JsValue (Planet.mk "Mars" "-60" "no"))))] in
  Subscription_received <$> subscriptions w !! 0
  = Some [DeliveredPlanet (JsValue earth)].
Proof. vm_compute. reflexivity. Qed.

(** Owner constructed, mutation attached, owner destroyed, then the source
    emits: the observer has received nothing, and the subject has no
    observer left. *)
Example scenario_destroyed_before_result :
  let w := run empty_world
             [CreatePlanetComponent; ClickAddPlanet 0; Destroy 0;
              MutationEmits 0 (Next (mkResult (JsValue earth)))] in
  Subscription_received <$> subscriptions w !! 0 = Some []
  ∧ Subscription_closed <$> subscriptions w !! 0 = Some true
  ∧ Subject.observers <$> subjects w !! 0 = Some [].
Proof. vm_compute. done. Qed.

(** * Further properties: what the repositories deliver *)

Section RepositoryFacts.
Context {Effect : Type}.

(** The two operators every Apollo operation of the repositories puts on
    the provider's source, with the comparison [keep] of its filter. *)
Lemma filtered_run_received {T} (keep : nullable T → bool)
    (o : Observer Effect (nullable T)) xs :
  Forall (fun v => keep v = true)
    (received
       (Subscriber_run
          pipe[ filter (fun r : ApolloResult T => keep (data r));
                map (fun r : ApolloResult T => data r) ] o xs).1.1).
Proof.
  unfold Subscriber_run.
  match goal with
  | |- context [foldl ?f ?a xs] =>
      assert (Forall (fun v => keep v = true) (received a.1.1)) as Ha
        by (cbn; constructor);
      revert Ha; generalize a
  end.
  induction xs as [|x xs IH]; intros a Ha; [done|].
  apply IH. destruct a as [[[c ss r] e] u]. cbn in Ha.
  destruct x as [n|d]; unfold Subscriber_step, Subscriber_push,
    Subscriber_signal; cbn; destruct c; cbn; try done.
  destruct n as [v| |]; cbn; try done.
  destruct (keep (data v)) eqn:Hk; cbn; [|done].
  apply Forall_app. split; [done|]. by constructor.
Qed.

End RepositoryFacts.

(** X1.  Whatever the provider emits, and with any observer, a subscriber
    of [getAllPlanets] or of the repository's [addPlanet] only ever
    receives real values: the loose comparison [!= null] keeps null and
    undefined away from it. *)
Theorem loose_repositories_deliver_values {Effect : Type} (planet : Planet.t)
    (o1 : Observer Effect (nullable (list Planet.t))) xs1
    (o2 : Observer Effect (nullable Planet.t)) xs2 :
  Forall (fun v => loose_ne_null v = true)
    (received
       (Subscriber_run (operators PlanetRepositoryService.getAllPlanets)
                       o1 xs1).1.1)
  ∧ Forall (fun v => loose_ne_null v = true)
      (received
         (Subscriber_run (operators (PlanetRepositoryService.addPlanet planet))
                         o2 xs2).1.1).
Proof.
  split.
  - apply (filtered_run_received loose_ne_null o1 xs1).
  - apply (filtered_run_received loose_ne_null o2 xs2).
Qed.

(** X2.  A subscriber of [getHerosByType] never receives null, but the
    strict comparison [!== null] lets an emission whose [data] is undefined
    through: an open chain hands [undefined] to its observer. *)
Theorem getHerosByType_strict_filter {Effect : Type} (heroType : string)
    (o : Observer Effect (nullable (list Hero.t))) xs s :
  ∃ heros,
    HeroRepositoryService.getHerosByType heroType = Some heros
    ∧ Forall (fun v => strict_ne_null v = true)
        (received (Subscriber_run (operators heros) o xs).1.1)
    ∧ received_after (operators heros) o s (Next (mkResult JsUndefined))
      = received s ++ (if closed s then [] else [JsUndefined]).
Proof.
  eexists. split; [reflexivity|]. split.
  - apply (filtered_run_received strict_ne_null o xs).
  - unfold received_after, Subscriber_push.
    destruct (closed s); cbn; by rewrite ?app_nil_r.
Qed.

(** * Further properties: the guard in every reachable world *)

(** X3.  In every reachable world each chain has an owner that exists, and
    the owner's [destroy$] is the one subject that can hold the chain: the
    chain is among its observers exactly while it is open, and among those
    of no other subject.  So no open chain is out of reach of its owner's
    [ngOnDestroy], and no subject keeps a chain that has closed. *)
Theorem open_chains_are_guarded w sid sub :
  reachable w → subscriptions w !! sid = Some sub →
  ∃ c sj, components w !! Subscription_owner sub = Some c
          ∧ subjects w !! destroy_of c = Some sj
          ∧ (sid ∈ Subject.observers sj ↔ Subscription_closed sub = false)
          ∧ ∀ d sj', subjects w !! d = Some sj' →
                     sid ∈ Subject.observers sj' → d = destroy_of c.
Proof.
  intros Hw Hs. pose proof (reachable_wf w Hw) as Hwf.
  destruct (wf_owner w Hwf sid sub Hs) as (_ & c & Hc & Hn).
  destruct (wf_allocated w Hwf _ c Hc) as [sj Hsj].
  exists c, sj. split_and!; [done..| |].
  - split.
    + intros Hin.
      destruct (wf_observers w Hwf _ sj sid Hsj Hin) as (sub0 & Hs0 & Ho & _).
      congruence.
    + intros Ho.
      destruct (wf_registered w Hwf sid sub (destroy_of c) Hs Ho)
        as (sj0 & Hsj0 & Hin); [|congruence].
      rewrite Hn. by apply list_elem_of_singleton.
  - intros d sj' Hsj' Hin.
    destruct (wf_observers w Hwf d sj' sid Hsj' Hin) as (sub0 & Hs0 & _ & Hd).
    assert (sub0 = sub) as -> by congruence.
    rewrite Hn in Hd. by apply list_elem_of_singleton in Hd.
Qed.

Lemma open_chains_are_guarded_witness :
  let w := run empty_world [CreatePlanetComponent; ClickAddPlanet 0] in
  let sub := MutationSubscription
               (mkSubscribed 0 (addPlanet_chain 0) bare
                  (mkSubscriber false [0; 0; 0; 0] [])) in
  ∃ c sj, components w !! Subscription_owner sub = Some c
          ∧ subjects w !! destroy_of c = Some sj
          ∧ (0 ∈ Subject.observers sj ↔ Subscription_closed sub = false)
          ∧ ∀ d sj', subjects w !! d = Some sj' →
                     0 ∈ Subject.observers sj' → d = destroy_of c.
Proof.
  apply (open_chains_are_guarded
           (run empty_world [CreatePlanetComponent; ClickAddPlanet 0]) 0).
  - by eexists.
  - vm_compute. reflexivity.
Defined.

(** * Further properties: the end of a source *)

Section EndingFacts.
Context {Effect R T : Type}.

Lemma pipe_feed_error (p : Pipe Effect R T) (ss : list nat) err :
  ∃ ss', pipe_feed p ss [Error err] = (ss', [Error err], []).
Proof.
  revert ss. induction p as [T0|T0 R0 S0 op rest IH]; intros ss; cbn.
  - eauto.
  - destruct (IH (tl ss)) as [ss' ->]. eauto.
Qed.

(** An error or a completion of the source runs through every operator
    and closes a chain without handlers; only the error is reported. *)
Lemma Subscriber_push_ending (p : Pipe Effect R T) s (x : ending) :
  closed s = false →
  ∃ ss, Subscriber_push p bare s (ending_notification x)
        = (mkSubscriber true ss (received s), [],
           match x with Fails err => [err] | Completes => [] end).
Proof.
  intros Hs. unfold Subscriber_push. rewrite Hs. destruct x as [err|]; cbn.
  - destruct (pipe_feed_error p (seen s) err) as [ss ->]. by exists ss.
  - destruct (pipe_feed_complete p (seen s)) as [ss ->]. by exists ss.
Qed.

End EndingFacts.

Lemma push_ending {R T} (inj : Subscribed R T → Subscription)
    (s : Subscribed R T) x sid w :
  (∀ s, Subscription_owner (inj s) = owner s) →
  (∀ s, Subscription_bare (inj s) ↔ observer s = bare) →
  (∀ s, Subscription_closed (inj s) = closed (state s)) →
  wf w → subscriptions w !! sid = Some (inj s) → closed (state s) = false →
  ∃ ss,
    (let '(st, eff, errs) :=
       Subscriber_push (chain s) (observer s) (state s) (ending_notification x)
     in settle sid (inj (with_state s st)) eff errs w)
    = mkWorld (Subject.remove sid <$> subjects w) (components w)
        (<[sid := inj (with_state s (mkSubscriber true ss (received (state s))))]>
           (subscriptions w))
        (destroyed w)
        (unhandled w ++ match x with Fails err => [err] | Completes => [] end).
Proof.
  intros Ho Hb Hc Hwf Hs Hopen.
  destruct (wf_owner w Hwf sid (inj s) Hs) as (Hbare & _).
  apply Hb in Hbare. rewrite Hbare.
  destruct (Subscriber_push_ending (chain s) (state s) x Hopen) as [ss ->].
  exists ss. unfold settle. rewrite Hc. cbn. unfold finalize. cbn.
  by rewrite alter_nothing.
Qed.

(** X4.  When the source of an open chain ends, by an error or by
    completing, in any reachable world and for either component: the chain
    closes, having handed its observer nothing more; it is removed from
    the observers of every subject; no component changes; and an error,
    for which the bare [subscribe()] has no handler, is added to the
    unhandled errors, while a completion reports nothing. *)
Theorem source_end_closes_chain w sid sub x :
  reachable w →
  subscriptions w !! sid = Some sub → Subscription_closed sub = false →
  let w' := step w (ends sid sub x) in
  (∃ sub', subscriptions w' !! sid = Some sub'
           ∧ Subscription_closed sub' = true
           ∧ Subscription_received sub' = Subscription_received sub)
  ∧ unhandled w'
    = unhandled w ++ match x with Fails err => [err] | Completes => [] end
  ∧ components w' = components w
  ∧ ∀ d sj, subjects w' !! d = Some sj → sid ∉ Subject.observers sj.
Proof.
  intros Hw Hs Hopen w'. pose proof (reachable_wf w Hw) as Hwf.
  assert (∃ sub',
            w' = mkWorld (Subject.remove sid <$> subjects w) (components w)
                   (<[sid := sub']> (subscriptions w)) (destroyed w)
                   (unhandled w
                    ++ match x with Fails err => [err] | Completes => [] end)
            ∧ Subscription_closed sub' = true
            ∧ Subscription_received sub' = Subscription_received sub)
    as (sub' & -> & Hc' & Hr').
  { unfold w'. destruct sub as [s|s]; cbn in *.
    - unfold push_mutation. rewrite Hs.
      destruct (push_ending MutationSubscription s x sid w) as [ss ->];
        try done.
      by eexists.
    - unfold push_query. rewrite Hs.
      destruct (push_ending QuerySubscription s x sid w) as [ss ->];
        try done.
      by eexists. }
  cbn. split_and!; [|done..|].
  - exists sub'. by rewrite lookup_insert_eq.
  - intros d sj. rewrite lookup_fmap. intros (sj0 & _ & ->)%fmap_Some.
    rewrite elem_of_remove. by intros [_ ?].
Qed.

Lemma source_end_closes_chain_witness :
  let w := run empty_world [CreateHeroDetailComponent; Init 0] in
  let sub := QuerySubscription
               (mkSubscribed 0 (getAllPlanets_chain 0) bare
                  (mkSubscriber false [0; 0; 0; 0] [])) in
  let w' := step w (ends 0 sub (Fails "Network error")) in
  (∃ sub', subscriptions w' !! 0 = Some sub'
           ∧ Subscription_closed sub' = true
           ∧ Subscription_received sub' = Subscription_received sub)
  ∧ unhandled w' = unhandled w ++ ["Network error"]
  ∧ components w' = components w
  ∧ ∀ d sj, subjects w' !! d = Some sj → 0 ∉ Subject.observers sj.
Proof.
  apply (source_end_closes_chain
           (run empty_world [CreateHeroDetailComponent; Init 0]) 0
           (QuerySubscription
              (mkSubscribed 0 (getAllPlanets_chain 0) bare
                 (mkSubscriber false [0; 0; 0; 0] [])))
           (Fails "Network error")).
  - by eexists.
  - vm_compute. reflexivity.
  - reflexivity.
Defined.

(** * Further properties: what subscribing does to the world *)

Lemma alter_present {A} (f : A → A) d (m : gmap nat A) sj :
  m !! d = Some sj → alter f d m = <[d := f sj]> m.
Proof.
  intros Hd. apply map_eq. intros i. rewrite lookup_alter.
  case_decide as Hi.
  - subst. by rewrite Hd, lookup_insert_eq.
  - by rewrite lookup_insert_ne.
Qed.

(** All that a call of [addPlanet] changes: one new open chain, owned by
    the component and appended to the observers of its [destroy$]. *)
Lemma PlanetComponent_addPlanet_world w this c sj :
  components w !! this = Some (PlanetComponentInstance c) →
  subjects w !! PlanetFields.destroy' c = Some sj →
  PlanetComponent.addPlanet this w
  = mkWorld
      (<[PlanetFields.destroy' c :=
           Subject.add (fresh (dom (subscriptions w))) sj]> (subjects w))
      (components w)
      (<[fresh (dom (subscriptions w)) :=
           MutationSubscription
             (mkSubscribed this (addPlanet_chain (PlanetFields.destroy' c))
                bare (mkSubscriber false [0; 0; 0; 0] []))]>
         (subscriptions w))
      (destroyed w) (unhandled w).
Proof.
  intros Hc Hsj. unfold PlanetComponent.addPlanet. rewrite Hc.
  unfold subscribe, settle, register. cbn.
  rewrite alter_nothing, app_nil_r. f_equal. by apply alter_present.
Qed.

Lemma addPlanet_iter_wf w this n :
  wf w → wf (Nat.iter n (PlanetComponent.addPlanet this) w).
Proof.
  intros Hwf. induction n as [|n IH]; [done|].
  apply (step_wf _ (ClickAddPlanet this)), IH.
Qed.

(** X5.  Each call of [addPlanet] whose result has not arrived adds one
    subscription and one observer to the component's [destroy$]: after n
    calls there are n more of each.  One [ngOnDestroy] then leaves the
    subject without any observer. *)
Theorem each_addPlanet_adds_an_observer w this c sj n :
  reachable w →
  components w !! this = Some (PlanetComponentInstance c) →
  subjects w !! PlanetFields.destroy' c = Some sj →
  let w' := Nat.iter n (PlanetComponent.addPlanet this) w in
  (∃ sj', subjects w' !! PlanetFields.destroy' c = Some sj'
          ∧ length (Subject.observers sj') = length (Subject.observers sj) + n
          ∧ Subject.nexts sj' = Subject.nexts sj)
  ∧ size (subscriptions w') = size (subscriptions w) + n
  ∧ subjects (PlanetComponent.ngOnDestroy this w') !! PlanetFields.destroy' c
    = Some (Subject.mk [] (S (Subject.nexts sj))).
Proof.
  intros Hw Hc Hsj w'. pose proof (reachable_wf w Hw) as Hwf.
  assert (components w' = components w
          ∧ (∃ sj', subjects w' !! PlanetFields.destroy' c = Some sj'
                    ∧ length (Subject.observers sj')
                      = length (Subject.observers sj) + n
                    ∧ Subject.nexts sj' = Subject.nexts sj)
          ∧ size (subscriptions w') = size (subscriptions w) + n)
    as (Hcomp & (sj' & Hsj' & Hlen & Hnexts) & Hsize).
  { unfold w'. clear w'. induction n as [|n (IHc & (sj' & Hsj' & Hlen & Hn) & IHs)].
    - split_and!; [done| |cbn; lia]. exists sj. split_and!; [done|lia|done].
    - change (Nat.iter (S n) (PlanetComponent.addPlanet this) w)
        with (PlanetComponent.addPlanet this
                (Nat.iter n (PlanetComponent.addPlanet this) w)).
      rewrite (PlanetComponent_addPlanet_world _ this c sj') by congruence.
      cbn. split_and!; [done| |].
      + rewrite lookup_insert_eq. eexists. split; [done|].
        unfold Subject.add; cbn. rewrite length_app. cbn. split; [lia|done].
      + rewrite map_size_insert_None by apply fresh_subscription. lia. }
  split_and!; [by exists sj'|done|].
  unfold PlanetComponent.ngOnDestroy. rewrite Hcomp, Hc.
  rewrite (Subject_next_drains _ sj' w'); [by rewrite Hnexts| |done].
  by apply addPlanet_iter_wf.
Qed.

Lemma each_addPlanet_adds_an_observer_witness :
  let w := run empty_world [CreatePlanetComponent] in
  let w' := Nat.iter 3 (PlanetComponent.addPlanet 0) w in
  (∃ sj', subjects w' !! 0 = Some sj'
          ∧ length (Subject.observers sj') = 0 + 3
          ∧ Subject.nexts sj' = 0)
  ∧ size (subscriptions w') = size (subscriptions w) + 3
  ∧ subjects (PlanetComponent.ngOnDestroy 0 w') !! 0 = Some (Subject.mk [] 1).
Proof.
  apply (each_addPlanet_adds_an_observer
           (run empty_world [CreatePlanetComponent]) 0 (PlanetFields.mk 0 None)
           Subject.new 3).
  - by eexists.
  - vm_compute. reflexivity.
  - vm_compute. reflexivity.
Defined.

(** All that HeroDetailComponent.ngOnInit changes: it stores an
    observable in [heroId$], leaving [hero$], [planets] and [destroy$] as
    they are, and subscribes one chain of [getAllPlanets], open, owned by
    the component and appended to the observers of its [destroy$].
    Nothing is subscribed for [heroId$] itself. *)
Theorem ngOnInit_subscribes_one_guarded_chain w this c sj :
  components w !! this = Some (HeroDetailComponentInstance c) →
  subjects w !! HeroDetailFields.destroy' c = Some sj →
  ∃ heroId,
    HeroDetailComponent.ngOnInit this w
    = mkWorld
        (<[HeroDetailFields.destroy' c :=
             Subject.add (fresh (dom (subscriptions w))) sj]> (subjects w))
        (<[this :=
             HeroDetailComponentInstance
               (HeroDetailFields.mk (HeroDetailFields.destroy' c) (Some heroId)
                  (HeroDetailFields.hero' c) (HeroDetailFields.planets c))]>
           (components w))
        (<[fresh (dom (subscriptions w)) :=
             QuerySubscription
               (mkSubscribed this
                  (getAllPlanets_chain (HeroDetailFields.destroy' c))
                  bare (mkSubscriber false [0; 0; 0; 0] []))]>
           (subscriptions w))
        (destroyed w) (unhandled w).
Proof.
  intros Hc Hsj. eexists. unfold HeroDetailComponent.ngOnInit. rewrite Hc.
  unfold subscribe, settle, register, set_component. cbn.
  rewrite alter_nothing, app_nil_r. f_equal. by apply alter_present.
Qed.

Lemma ngOnInit_subscribes_one_guarded_chain_witness :
  let w := run empty_world [CreateHeroDetailComponent] in
  ∃ heroId,
    HeroDetailComponent.ngOnInit 0 w
    = mkWorld
        (<[0 := Subject.add (fresh (dom (subscriptions w))) Subject.new]>
           (subjects w))
        (<[0 := HeroDetailComponentInstance
                  (HeroDetailFields.mk 0 (Some heroId) None JsNull)]>
           (components w))
        (<[fresh (dom (subscriptions w)) :=
             QuerySubscription
               (mkSubscribed 0 (getAllPlanets_chain 0) bare
                  (mkSubscriber false [0; 0; 0; 0] []))]>
           (subscriptions w))
        (destroyed w) (unhandled w).
Proof.
  apply (ngOnInit_subscribes_one_guarded_chain
           (run empty_world [CreateHeroDetailComponent]) 0
           (HeroDetailFields.mk 0 None None JsNull) Subject.new).
  - vm_compute. reflexivity.
  - vm_compute. reflexivity.
Defined.

(** X6.  The observable ngOnInit stores in [heroId$], once something
    subscribes to it.  A route params object whose [id] is null is dropped
    by the filter: nothing is delivered and no callback runs.  Every other
    params object passes, also one without an [id], because a missing key
    reads as undefined and the comparison is [!== null]: the subscriber
    receives [param['id']] and the tap assigns to [hero$] the GET of the
    endpoint followed by that id, which for undefined is the text
    "undefined".  ngOnInit itself leaves [hero$] as it is. *)
Theorem heroId_pipe_sets_hero w this c
    (o : Observer Assignment (nullable string)) s (param : Params) :
  components w !! this = Some (HeroDetailComponentInstance c) →
  closed s = false →
  let id := param_get param "id" in
  let hero :=
    Some (mkObservable
            (HttpGet (HeroRepositoryService.endpoint
                      ++ "/" ++ template_string id)) pipe_end) in
  ∃ c' heroId,
    components (HeroDetailComponent.ngOnInit this w) !! this
    = Some (HeroDetailComponentInstance c')
    ∧ HeroDetailFields.heroId' c' = Some heroId
    ∧ HeroDetailFields.hero' c' = HeroDetailFields.hero' c
    ∧ (let out := Subscriber_push (operators heroId) o s (Next param) in
       closed out.1.1 = false
       ∧ out.2 = []
       ∧ match id with
         | JsNull => received out.1.1 = received s ∧ out.1.2 = []
         | _ =>
             received out.1.1 = received s ++ [id]
             ∧ out.1.2
               = assign_hero' hero
                   :: match next o with Some f => [f id] | None => [] end
         end)
    ∧ assign (assign_hero' hero) (HeroDetailComponentInstance c')
      = HeroDetailComponentInstance
          (HeroDetailFields.mk (HeroDetailFields.destroy' c')
             (HeroDetailFields.heroId' c') hero (HeroDetailFields.planets c')).
Proof.
  intros Hc Hs id hero.
  assert (∃ c', components (HeroDetailComponent.ngOnInit this w) !! this
                = Some (HeroDetailComponentInstance c')
                ∧ HeroDetailFields.hero' c' = HeroDetailFields.hero' c
                ∧ HeroDetailFields.heroId' c'
                  = Some (pipe (mkObservable RouteParams pipe_end)
                     pipe[ filter (fun param =>
                                     strict_ne_null (param_get param "id"));
                           map (fun param => param_get param "id");
                           tap (fun heroId =>
                                  assign_hero'
                                    (HeroRepositoryService.getHero heroId)) ]))
    as (c' & Hc' & Hh & Hid).
  { unfold HeroDetailComponent.ngOnInit. rewrite Hc.
    unfold subscribe, settle, register, set_component. cbn.
    rewrite alter_nothing, lookup_insert_eq. by eexists. }
  exists c'. eexists. split_and!; [exact Hc'|exact Hid|exact Hh| |reflexivity].
  subst hero id. unfold Subscriber_push. rewrite Hs. unfold param_get.
  destruct (param !! "id") as [[| |v]|] eqn:E; cbn;
    repeat (rewrite E; cbn); by rewrite ?app_nil_r.
Qed.

Lemma heroId_pipe_sets_hero_witness :
  let w := run empty_world [CreateHeroDetailComponent] in
  let s := mkSubscriber false [0; 0; 0] [] in
  let param : Params := {["id" := JsNull]} in
  let id := param_get param "id" in
  let hero :=
    Some (mkObservable
            (HttpGet (HeroRepositoryService.endpoint
                      ++ "/" ++ template_string id)) pipe_end) in
  ∃ c' heroId,
    components (HeroDetailComponent.ngOnInit 0 w) !! 0
    = Some (HeroDetailComponentInstance c')
    ∧ HeroDetailFields.heroId' c' = Some heroId
    ∧ HeroDetailFields.hero' c' = None
    ∧ (let out := Subscriber_push (operators heroId) bare s (Next param) in
       closed out.1.1 = false
       ∧ out.2 = []
       ∧ match id with
         | JsNull => received out.1.1 = received s ∧ out.1.2 = []
         | _ =>
             received out.1.1 = received s ++ [id]
             ∧ out.1.2
               = assign_hero' hero
                   :: match next (@bare Assignment _) with
                      | Some f => [f id] | None => [] end
         end)
    ∧ assign (assign_hero' hero) (HeroDetailComponentInstance c')
      = HeroDetailComponentInstance
          (HeroDetailFields.mk (HeroDetailFields.destroy' c')
             (HeroDetailFields.heroId' c') hero (HeroDetailFields.planets c')).
Proof.
  apply (heroId_pipe_sets_hero
           (run empty_world [CreateHeroDetailComponent]) 0
           (HeroDetailFields.mk 0 None None JsNull) bare
           (mkSubscriber false [0; 0; 0] []) {["id" := JsNull]}).
  - vm_compute. reflexivity.
  - reflexivity.
Defined.

(** * Further properties: the shape of the chains in every reachable world *)

Lemma signal_component_chain d sub sub' eff errs :
  component_chain sub → Subscription_signal d sub = (sub', eff, errs) →
  component_chain sub' ∧ is_query sub' = is_query sub
  ∧ Subscription_owner sub' = Subscription_owner sub.
Proof.
  destruct sub as [[ow ch ob [c ss r]]|[ow ch ob [c ss r]]]; cbn.
  - intros ([d0 ->] & -> & Hv & Hl & Hopen). destruct c.
    { unfold Subscriber_signal; cbn. intros; simplify_eq. cbn. eauto 10. }
    destruct Hopen as [-> ->]; [done|].
    unfold Subscriber_signal; cbn. case_bool_decide; cbn;
      intros; simplify_eq; cbn; split_and!; eauto; try done; cbn; lia.
  - intros ([d0 ->] & -> & -> & Hv). destruct c.
    { unfold Subscriber_signal; cbn. intros; simplify_eq. cbn. eauto 10. }
    unfold Subscriber_signal; cbn. case_bool_decide; cbn;
      intros; simplify_eq; cbn; split_and!; eauto.
Qed.

(** A mutation chain runs no callback: it has no tap, and its observer no
    handler. *)
Lemma push_mutation_component_chain s n st eff errs :
  component_chain (MutationSubscription s) →
  Subscriber_push (chain s) (observer s) (state s) n = (st, eff, errs) →
  component_chain (MutationSubscription (with_state s st)) ∧ eff = [].
Proof.
  destruct s as [ow ch ob [c ss r]]; cbn.
  intros ([d0 ->] & -> & Hv & Hl & Hopen). destruct c.
  { unfold Subscriber_push; cbn. intros; simplify_eq. cbn. eauto 10. }
  destruct Hopen as [-> ->]; [done|].
  destruct n as [[[| |v]]| |]; unfold Subscriber_push; cbn;
    intros; simplify_eq; cbn; split_and!; eauto; try done;
    try (cbn; lia).
Qed.

(** The only callback a query chain runs is its tap, on a real value. *)
Lemma push_query_component_chain s n st eff errs :
  component_chain (QuerySubscription s) →
  Subscriber_push (chain s) (observer s) (state s) n = (st, eff, errs) →
  component_chain (QuerySubscription (with_state s st))
  ∧ Forall (fun a => ∃ ps, a = assign_planets (JsValue ps)) eff.
Proof.
  destruct s as [ow ch ob [c ss r]]; cbn.
  intros ([d0 ->] & -> & -> & Hv). destruct c.
  { unfold Subscriber_push; cbn. intros; simplify_eq. cbn. eauto 10. }
  destruct n as [[[| |v]]| |]; unfold Subscriber_push; cbn;
    intros; simplify_eq; cbn; split_and!; eauto.
  apply Forall_app. split; [done|]. by repeat constructor.
Qed.

Lemma assign_is_hero a c : is_hero (assign a c) = is_hero c.
Proof. by destruct c, a. Qed.

Lemma assigns_is_hero eff c :
  is_hero (foldl (fun c a => assign a c) c eff) = is_hero c.
Proof.
  revert c. induction eff as [|a eff IH]; intros c; cbn; [done|].
  by rewrite IH, assign_is_hero.
Qed.

Lemma lookup_assigned_kind eff o o' (m : gmap nat Component) c :
  m !! o' = Some c →
  ∃ c', alter (fun c => foldl (fun c a => assign a c) c eff) o m !! o' = Some c'
        ∧ is_hero c' = is_hero c.
Proof.
  intros Hc. rewrite lookup_alter. case_decide.
  - subst. rewrite Hc. cbn. eexists. split; [done|]. apply assigns_is_hero.
  - by exists c.
Qed.

Lemma shaped_attach w w' sid sub :
  shaped w →
  subscriptions w' = <[sid := sub]> (subscriptions w) →
  (∀ o c, components w !! o = Some c →
     ∃ c', components w' !! o = Some c' ∧ is_hero c' = is_hero c) →
  component_chain sub →
  (∃ c, components w !! Subscription_owner sub = Some c
        ∧ is_hero c = is_query sub) →
  shaped w'.
Proof.
  intros Hw Hsubs Hkeep Hsub (c & Hc & Hk) x s. rewrite Hsubs.
  destruct (decide (x = sid)) as [->|Hne].
  - rewrite lookup_insert_eq. intros ?; simplify_eq. split; [done|].
    destruct (Hkeep _ c Hc) as (c' & Hc' & Hk'). exists c'. split; [done|].
    congruence.
  - rewrite lookup_insert_ne by done. intros Hx.
    destruct (Hw x s Hx) as (Hch & c0 & Hc0 & Hk0). split; [done|].
    destruct (Hkeep _ c0 Hc0) as (c' & Hc' & Hk'). exists c'. split; [done|].
    congruence.
Qed.

Lemma shaped_same w w' :
  shaped w →
  subscriptions w' = subscriptions w →
  (∀ o c, components w !! o = Some c →
     ∃ c', components w' !! o = Some c' ∧ is_hero c' = is_hero c) →
  shaped w'.
Proof.
  intros Hw Hsubs Hkeep x s. rewrite Hsubs. intros Hx.
  destruct (Hw x s Hx) as (Hch & c0 & Hc0 & Hk0). split; [done|].
  destruct (Hkeep _ c0 Hc0) as (c' & Hc' & Hk'). exists c'. split; [done|].
  congruence.
Qed.

Lemma settle_shaped sid sub sub' eff errs w :
  shaped w → subscriptions w !! sid = Some sub →
  component_chain sub' → is_query sub' = is_query sub →
  Subscription_owner sub' = Subscription_owner sub →
  shaped (settle sid sub' eff errs w).
Proof.
  intros Hw Hs Hch Hq Ho. destruct (Hw sid sub Hs) as (_ & c & Hc & Hk).
  apply (shaped_attach w _ sid sub'); [done| | |done|].
  - apply settle_subscriptions.
  - intros o c0 Hc0. rewrite settle_components.
    by apply lookup_assigned_kind.
  - exists c. split; congruence.
Qed.

Lemma notify_shaped d sid w : shaped w → shaped (notify d sid w).
Proof.
  intros Hw. unfold notify.
  destruct (subscriptions w !! sid) as [sub|] eqn:Hs; [|done].
  destruct (Subscription_signal d sub) as [[sub' eff] errs] eqn:Hsig.
  destruct (Hw sid sub Hs) as (Hch & _).
  destruct (signal_component_chain d sub sub' eff errs Hch Hsig)
    as (Hch' & Hq & Ho).
  by eapply settle_shaped.
Qed.

Lemma notify_all_shaped d l w :
  shaped w → shaped (foldl (fun w sid => notify d sid w) w l).
Proof.
  revert w. induction l as [|x l IH]; intros w Hw; cbn; [done|].
  by apply IH, notify_shaped.
Qed.

Lemma Subject_next_shaped d w : shaped w → shaped (Subject_next d w).
Proof.
  intros Hw. unfold Subject_next. destruct (subjects w !! d) as [sj|]; [|done].
  by apply notify_all_shaped.
Qed.

Lemma step_shaped w e : shaped w → shaped (step w e).
Proof.
  intros Hw. destruct e as [| |o|o|o|sid n|sid n]; cbn.
  - apply (shaped_same w); [done..|]. cbn. intros o c Hc. exists c.
    split; [|done]. rewrite lookup_insert_ne; [done|]. intros E.
    rewrite <- E, fresh_component in Hc. done.
  - apply (shaped_same w); [done..|]. cbn. intros o c Hc. exists c.
    split; [|done]. rewrite lookup_insert_ne; [done|]. intros E.
    rewrite <- E, fresh_component in Hc. done.
  - destruct (components w !! o) as [[c|c]|] eqn:Hc; [| |done].
    + unfold PlanetComponent.ngOnInit. rewrite Hc.
      apply (shaped_same w); [done..|]. cbn. intros o1 c1 Hc1.
      destruct (decide (o1 = o)) as [->|Hne].
      * rewrite lookup_insert_eq. simplify_eq. by eexists.
      * rewrite lookup_insert_ne by done. by exists c1.
    + unfold HeroDetailComponent.ngOnInit. rewrite Hc.
      unfold subscribe, settle, register, set_component. cbn.
      rewrite alter_nothing.
      eapply (shaped_attach w); [done|reflexivity| | |].
      * cbn. intros o1 c1 Hc1. destruct (decide (o1 = o)) as [->|Hne].
        -- rewrite lookup_insert_eq. simplify_eq. by eexists.
        -- rewrite lookup_insert_ne by done. by exists c1.
      * cbn. split_and!; [by eexists|done..|constructor].
      * cbn. by eexists.
  - destruct (components w !! o) as [[c|c]|] eqn:Hc; [| |done].
    + unfold PlanetComponent.ngOnDestroy. cbn. rewrite Hc.
      by apply Subject_next_shaped.
    + unfold HeroDetailComponent.ngOnDestroy. cbn. rewrite Hc.
      by apply Subject_next_shaped.
  - unfold PlanetComponent.addPlanet.
    destruct (components w !! o) as [[c|c]|] eqn:Hc; [|done..].
    unfold subscribe, settle, register. cbn. rewrite alter_nothing.
    eapply (shaped_attach w); [done|reflexivity| | |].
    + cbn. by eauto.
    + cbn. split_and!; [by eexists|done|constructor|lia|done].
    + cbn. by eexists.
  - unfold push_mutation.
    destruct (subscriptions w !! sid) as [[s|s]|] eqn:Hs; [|done..].
    destruct (Subscriber_push _ _ _ _) as [[st eff] errs] eqn:Hpush.
    destruct (Hw sid _ Hs) as (Hch & _).
    destruct (push_mutation_component_chain s n st eff errs Hch Hpush)
      as (Hch' & _).
    by eapply settle_shaped.
  - unfold push_query.
    destruct (subscriptions w !! sid) as [[s|s]|] eqn:Hs; [done| |done].
    destruct (Subscriber_push _ _ _ _) as [[st eff] errs] eqn:Hpush.
    destruct (Hw sid _ Hs) as (Hch & _).
    destruct (push_query_component_chain s n st eff errs Hch Hpush)
      as (Hch' & _).
    by eapply settle_shaped.
Qed.

Lemma reachable_shaped w : reachable w → shaped w.
Proof.
  intros [es ->]. induction es as [|e es IH] using rev_ind.
  - intros sid sub Hs. cbn in Hs. by rewrite lookup_empty in Hs.
  - unfold run. rewrite foldl_app. cbn. by apply step_shaped.
Qed.

Lemma assigns_planets_defined eff c0 c' :
  Forall (fun a => ∃ ps, a = assign_planets (JsValue ps)) eff →
  foldl (fun c a => assign a c) c0 eff = HeroDetailComponentInstance c' →
  ∃ c, c0 = HeroDetailComponentInstance c
       ∧ (HeroDetailFields.planets c ≠ JsUndefined →
          HeroDetailFields.planets c' ≠ JsUndefined).
Proof.
  intros Heff. revert c0. induction Heff as [|a eff [ps ->] _ IH]; intros c0; cbn.
  - intros ->. by eexists.
  - intros (c1 & Hc1 & Hd)%IH. destruct c0 as [c0|c0]; cbn in Hc1; [done|].
    simplify_eq. eexists. split; [done|]. intros _. by apply Hd.
Qed.

Lemma step_planets_defined w e :
  wf w → shaped w → planets_defined w → planets_defined (step w e).
Proof.
  intros Hwf Hsh Hp. destruct e as [| |o|o|o|sid n|sid n]; cbn.
  - intros o1 c1. cbn. destruct (decide (o1 = fresh (dom (components w))))
      as [->|Hne].
    + by rewrite lookup_insert_eq.
    + rewrite lookup_insert_ne by done. apply Hp.
  - intros o1 c1. cbn. destruct (decide (o1 = fresh (dom (components w))))
      as [->|Hne].
    + rewrite lookup_insert_eq. intros ?; simplify_eq. done.
    + rewrite lookup_insert_ne by done. apply Hp.
  - destruct (components w !! o) as [[c|c]|] eqn:Hc; [| |done].
    + unfold PlanetComponent.ngOnInit. rewrite Hc. intros o1 c1. cbn.
      destruct (decide (o1 = o)) as [->|Hne].
      * by rewrite lookup_insert_eq.
      * rewrite lookup_insert_ne by done. apply Hp.
    + unfold HeroDetailComponent.ngOnInit. rewrite Hc.
      unfold subscribe, settle, register, set_component. cbn.
      rewrite alter_nothing. intros o1 c1. cbn.
      destruct (decide (o1 = o)) as [->|Hne].
      * rewrite lookup_insert_eq. intros ?; simplify_eq. cbn.
        by apply (Hp o c).
      * rewrite lookup_insert_ne by done. apply Hp.
  - destruct (components w !! o) as [c|] eqn:Hc; [|done].
    assert (components (match c with
                        | PlanetComponentInstance _ =>
                            PlanetComponent.ngOnDestroy o (mark_destroyed o w)
                        | HeroDetailComponentInstance _ =>
                            HeroDetailComponent.ngOnDestroy o
                              (mark_destroyed o w)
                        end) = components w) as Hsame.
    { destruct c as [c|c].
      - unfold PlanetComponent.ngOnDestroy. cbn. rewrite Hc.
        by destruct (Subject_next_silent (PlanetFields.destroy' c)
                       (mark_destroyed o w) (mark_destroyed_wf o w Hwf))
          as (-> & _).
      - unfold HeroDetailComponent.ngOnDestroy. cbn. rewrite Hc.
        by destruct (Subject_next_silent (HeroDetailFields.destroy' c)
                       (mark_destroyed o w) (mark_destroyed_wf o w Hwf))
          as (-> & _). }
    intros o1 c1. rewrite Hsame. apply Hp.
  - unfold PlanetComponent.addPlanet.
    destruct (components w !! o) as [[c|c]|] eqn:Hc; [|done..].
    unfold subscribe, settle, register. cbn. rewrite alter_nothing.
    intros o1 c1. apply Hp.
  - unfold push_mutation.
    destruct (subscriptions w !! sid) as [[s|s]|] eqn:Hs; [|done..].
    destruct (Subscriber_push _ _ _ _) as [[st eff] errs] eqn:Hpush.
    destruct (Hsh sid _ Hs) as (Hch & _).
    destruct (push_mutation_component_chain s n st eff errs Hch Hpush)
      as (_ & ->).
    intros o1 c1. rewrite settle_components, alter_nothing. apply Hp.
  - unfold push_query.
    destruct (subscriptions w !! sid) as [[s|s]|] eqn:Hs; [done| |done].
    destruct (Subscriber_push _ _ _ _) as [[st eff] errs] eqn:Hpush.
    destruct (Hsh sid _ Hs) as (Hch & _).
    destruct (push_query_component_chain s n st eff errs Hch Hpush)
      as (_ & Heff).
    intros o1 c1. rewrite settle_components, lookup_alter.
    case_decide as Ho; [|apply Hp].
    intros (c0 & Hc0 & Hc1)%fmap_Some. symmetry in Hc1.
    destruct (assigns_planets_defined eff c0 c1 Heff Hc1) as (c & -> & Hd).
    apply Hd. by eapply Hp.
Qed.

Lemma reachable_planets_defined w : reachable w → planets_defined w.
Proof.
  intros [es ->]. induction es as [|e es IH] using rev_ind.
  - intros o c Hc. cbn in Hc. by rewrite lookup_empty in Hc.
  - unfold run. rewrite foldl_app. cbn.
    apply step_planets_defined; [| |exact IH].
    + apply run_wf, empty_world_wf.
    + apply reachable_shaped. by eexists.
Qed.

(** X7.  In every reachable world a mutation chain is the one [addPlanet]
    makes, guarded by the [destroy$] of the PlanetComponent that owns it
    and subscribed without handlers; it has handed its observer nothing
    while it is open, and at most one value, a real planet, once it has
    closed. *)
Theorem mutation_chains_receive_one_value w sid s :
  reachable w → subscriptions w !! sid = Some (MutationSubscription s) →
  (∃ c, components w !! owner s = Some (PlanetComponentInstance c)
        ∧ chain s = addPlanet_chain (PlanetFields.destroy' c))
  ∧ observer s = bare
  ∧ (closed (state s) = false → received (state s) = [])
  ∧ (received (state s) = [] ∨ ∃ p, received (state s) = [JsValue p]).
Proof.
  intros Hw Hs.
  destruct (reachable_shaped w Hw sid _ Hs)
    as (([d Hd] & Hb & Hv & Hl & Hopen) & c & Hc & Hk).
  destruct (wf_owner w (reachable_wf w Hw) sid _ Hs) as (_ & c0 & Hc0 & Hn).
  cbn in *. assert (c0 = c) as -> by congruence.
  destruct c as [c|c]; [|done]. rewrite Hd in Hn. cbn in Hn.
  split_and!; [|done| |].
  - exists c. split; [done|]. congruence.
  - intros Ho. by apply Hopen.
  - destruct (received (state s)) as [|v [|v' r]]; [by left| |cbn in Hl; lia].
    right. apply Forall_cons in Hv as [Hv _]. destruct v; try done. by eexists.
Qed.

Lemma mutation_chains_receive_one_value_witness :
  let w := run empty_world
             [CreatePlanetComponent; ClickAddPlanet 0;
              MutationEmits 0 (Next (mkResult JsNull));
              MutationEmits 0 (Next (mkResult (JsValue earth)));
              MutationEmits 0 (Next (mkResult (JsValue earth)))] in
  let s := mkSubscribed 0 (addPlanet_chain 0) bare
             (mkSubscriber true [0; 0; 1; 0] [JsValue earth]) in
  (∃ c, components w !! owner s = Some (PlanetComponentInstance c)
        ∧ chain s = addPlanet_chain (PlanetFields.destroy' c))
  ∧ observer s = bare
  ∧ (closed (state s) = false → received (state s) = [])
  ∧ (received (state s) = [] ∨ ∃ p, received (state s) = [JsValue p]).
Proof.
  apply (mutation_chains_receive_one_value
           (run empty_world
              [CreatePlanetComponent; ClickAddPlanet 0;
               MutationEmits 0 (Next (mkResult JsNull));
               MutationEmits 0 (Next (mkResult (JsValue earth)));
               MutationEmits 0 (Next (mkResult (JsValue earth)))])
           0
           (mkSubscribed 0 (addPlanet_chain 0) bare
              (mkSubscriber true [0; 0; 1; 0] [JsValue earth]))).
  - by eexists.
  - vm_compute. reflexivity.
Defined.

Lemma World_eta w :
  mkWorld (subjects w) (components w) (subscriptions w) (destroyed w)
          (unhandled w) = w.
Proof. by destruct w. Qed.

(** X8.  What a result of the mutation does to an open chain of
    [addPlanet], in any reachable world.  A result without data (null or
    undefined) changes nothing at all: it is filtered before take(1)
    counts it, so the chain goes on waiting.  A result with data is handed
    to the observer and closes the chain, which leaves the observers of
    every subject; no component changes and no error is reported. *)
Theorem mutation_result_effect w sid s r :
  reachable w →
  subscriptions w !! sid = Some (MutationSubscription s) →
  closed (state s) = false →
  let w' := step w (MutationEmits sid (Next r)) in
  if loose_ne_null (data r)
  then ∃ ss,
         w' = mkWorld (Subject.remove sid <$> subjects w) (components w)
                (<[sid := MutationSubscription
                            (with_state s (mkSubscriber true ss [data r]))]>
                   (subscriptions w))
                (destroyed w) (unhandled w)
  else w' = w.
Proof.
  intros Hw Hs Ho w'.
  destruct (reachable_shaped w Hw sid _ Hs)
    as (([d Hd] & Hb & _ & _ & Hopen) & _).
  destruct (Hopen Ho) as [Hseen Hrec].
  unfold w'. cbn. unfold push_mutation. rewrite Hs.
  destruct s as [ow ch ob [c ss rs]]. cbn in *. subst.
  destruct r as [[| |v]]; unfold Subscriber_push; cbn.
  - unfold settle. cbn.
    rewrite alter_nothing, app_nil_r, insert_id by done. apply World_eta.
  - unfold settle. cbn.
    rewrite alter_nothing, app_nil_r, insert_id by done. apply World_eta.
  - unfold settle, finalize. cbn. rewrite alter_nothing, app_nil_r.
    by eexists.
Qed.

Lemma mutation_result_effect_witness :
  let w := run empty_world [CreatePlanetComponent; ClickAddPlanet 0] in
  let s := mkSubscribed 0 (addPlanet_chain 0) (@bare Assignment _)
             (mkSubscriber false [0; 0; 0; 0] []) in
  let w' := step w (MutationEmits 0 (Next (mkResult (JsValue earth)))) in
  ∃ ss,
    w' = mkWorld (Subject.remove 0 <$> subjects w) (components w)
           (<[0 := MutationSubscription
                     (with_state s (mkSubscriber true ss [JsValue earth]))]>
              (subscriptions w))
           (destroyed w) (unhandled w).
Proof.
  apply (mutation_result_effect
           (run empty_world [CreatePlanetComponent; ClickAddPlanet 0]) 0
           (mkSubscribed 0 (addPlanet_chain 0) bare
              (mkSubscriber false [0; 0; 0; 0] []))
           (mkResult (JsValue earth))).
  - by eexists.
  - vm_compute. reflexivity.
  - reflexivity.
Defined.

(** X9.  What an emission of [getAllPlanets] does to an open chain of
    HeroDetailComponent.ngOnInit, in any reachable world.  With data, the
    tap assigns the data to the [planets] field of the owner, a
    HeroDetailComponent, the observer receives it and the chain stays
    open; nothing else changes.  Without data (null or undefined) nothing
    changes at all. *)
Theorem query_result_is_assigned w sid s r :
  reachable w →
  subscriptions w !! sid = Some (QuerySubscription s) →
  closed (state s) = false →
  let w' := step w (QueryEmits sid (Next r)) in
  if loose_ne_null (data r)
  then ∃ c,
         components w !! owner s = Some (HeroDetailComponentInstance c)
         ∧ w' = mkWorld (subjects w)
                  (<[owner s :=
                       HeroDetailComponentInstance (with_planets c (data r))]>
                     (components w))
                  (<[sid := QuerySubscription
                              (with_state s
                                 (mkSubscriber false [0; 0; 0; 0]
                                    (received (state s) ++ [data r])))]>
                     (subscriptions w))
                  (destroyed w) (unhandled w)
  else w' = w.
Proof.
  intros Hw Hs Ho w'.
  destruct (reachable_shaped w Hw sid _ Hs)
    as (([d Hd] & Hb & Hseen & _) & c & Hc & Hk).
  unfold w'. cbn. unfold push_query. rewrite Hs.
  destruct s as [ow ch ob [cl ss rs]]. cbn in *. subst.
  destruct c as [c|c]; [done|].
  destruct r as [[| |v]]; unfold Subscriber_push; cbn.
  - unfold settle. cbn.
    rewrite alter_nothing, !app_nil_r, insert_id by done. apply World_eta.
  - unfold settle. cbn.
    rewrite alter_nothing, !app_nil_r, insert_id by done. apply World_eta.
  - unfold settle. cbn. rewrite app_nil_r.
    exists c. split; [done|]. f_equal.
    by rewrite (alter_present _ _ _ _ Hc).
Qed.

Lemma query_result_is_assigned_witness :
  let w := run empty_world
             [CreatePlanetComponent; CreateHeroDetailComponent; Init 1] in
  let s := mkSubscribed 1 (getAllPlanets_chain 1) (@bare Assignment _)
             (mkSubscriber false [0; 0; 0; 0] []) in
  let r := mkResult (JsValue [earth]) in
  let w' := step w (QueryEmits 0 (Next r)) in
  ∃ c,
    components w !! owner s = Some (HeroDetailComponentInstance c)
    ∧ w' = mkWorld (subjects w)
             (<[owner s :=
                  HeroDetailComponentInstance (with_planets c (data r))]>
                (components w))
             (<[0 := QuerySubscription
                       (with_state s
                          (mkSubscriber false [0; 0; 0; 0]
                             (received (state s) ++ [data r])))]>
                (subscriptions w))
             (destroyed w) (unhandled w).
Proof.
  apply (query_result_is_assigned
           (run empty_world
              [CreatePlanetComponent; CreateHeroDetailComponent; Init 1])
           0
           (mkSubscribed 1 (getAllPlanets_chain 1) bare
              (mkSubscriber false [0; 0; 0; 0] []))
           (mkResult (JsValue [earth]))).
  - by eexists.
  - vm_compute. reflexivity.
  - reflexivity.
Defined.

(** X10.  In every reachable world the [planets] field of a
    HeroDetailComponent is null, as initialised, or a list of planets: it
    is never undefined, because [getAllPlanets] filters with [!= null]
    before the tap assigns. *)
Theorem planets_never_undefined w o c :
  reachable w → components w !! o = Some (HeroDetailComponentInstance c) →
  HeroDetailFields.planets c = JsNull
  ∨ ∃ ps, HeroDetailFields.planets c = JsValue ps.
Proof.
  intros Hw Hc. pose proof (reachable_planets_defined w Hw o c Hc) as Hd.
  destruct (HeroDetailFields.planets c); [by left|done|right; by eexists].
Qed.

Lemma planets_never_undefined_witness :
  let c := HeroDetailFields.mk 0
             (Some (pipe (mkObservable RouteParams pipe_end)
                pipe[ filter (fun param =>
                                strict_ne_null (param_get param "id"));
                      map (fun param => param_get param "id");
                      tap (fun heroId =>
                             assign_hero'
                               (HeroRepositoryService.getHero heroId)) ]))
             None (JsValue [earth]) in
  HeroDetailFields.planets c = JsNull
  ∨ ∃ ps, HeroDetailFields.planets c = JsValue ps.
Proof.
  apply (planets_never_undefined
           (run empty_world
              [CreateHeroDetailComponent; Init 0;
               QueryEmits 0 (Next (mkResult (JsValue [earth])));
               QueryEmits 0 (Next (mkResult JsUndefined))])
           0).
  - by eexists.
  - vm_compute. reflexivity.
Defined.

(** X11.  The signal is not replayed.  [addPlanet] called on a
    PlanetComponent that has already been destroyed subscribes a chain
    like any other: it is open and among the observers of [destroy$], and
    it stays so until its source emits or [ngOnDestroy] runs once more;
    the earlier [destroy$.next()] does not reach it. *)
Theorem signal_is_not_replayed w this c es :
  reachable w → this ∈ destroyed w →
  components w !! this = Some (PlanetComponentInstance c) →
  let sid := fresh (dom (subscriptions w)) in
  forallb (quiet this sid) es = true →
  let w' := run (PlanetComponent.addPlanet this w) es in
  ∃ sub sj, subscriptions w' !! sid = Some sub
            ∧ Subscription_closed sub = false
            ∧ Subscription_owner sub = this
            ∧ subjects w' !! PlanetFields.destroy' c = Some sj
            ∧ sid ∈ Subject.observers sj.
Proof.
  intros Hw _ Hc sid Hq w'.
  set (sub0 := MutationSubscription
                 (mkSubscribed this (addPlanet_chain (PlanetFields.destroy' c))
                    bare (mkSubscriber false [0; 0; 0; 0] []))).
  assert (wf (PlanetComponent.addPlanet this w)) as Hwf0.
  { apply (step_wf w (ClickAddPlanet this)), reachable_wf, Hw. }
  assert (subscriptions (PlanetComponent.addPlanet this w) !! sid = Some sub0)
    as Hs0.
  { rewrite (addPlanet_subscriptions w this c Hc). apply lookup_insert_eq. }
  assert (subscriptions w' !! sid = Some sub0) as Hs'.
  { by apply (run_untouched _ es this). }
  destruct (wf_registered w' (run_wf _ es Hwf0) sid sub0
              (PlanetFields.destroy' c) Hs') as (sj & Hsj & Hin); [done| |].
  { cbn. by apply list_elem_of_singleton. }
  by exists sub0, sj.
Qed.

Lemma signal_is_not_replayed_witness :
  let w := run empty_world [CreatePlanetComponent; Destroy 0] in
  let w' := run (PlanetComponent.addPlanet 0 w)
                [CreateHeroDetailComponent; Init 1; Destroy 1] in
  ∃ sub sj, subscriptions w' !! 0 = Some sub
            ∧ Subscription_closed sub = false
            ∧ Subscription_owner sub = 0
            ∧ subjects w' !! 0 = Some sj
            ∧ 0 ∈ Subject.observers sj.
Proof.
  apply (signal_is_not_replayed
           (run empty_world [CreatePlanetComponent; Destroy 0]) 0
           (PlanetFields.mk 0 None)
           [CreateHeroDetailComponent; Init 1; Destroy 1]).
  - by eexists.
  - vm_compute. set_solver.
  - vm_compute. reflexivity.
  - vm_compute. reflexivity.
Defined.

(** X12.  PlanetComponent.ngOnInit subscribes nothing: it stores the
    observable of the repository's [getAllPlanets] in [planets$] and
    leaves the subjects and the subscriptions as they are.  Whatever later
    subscribes to that observable only ever receives real lists of
    planets. *)
Theorem planets_observable_delivers_values w this c
    (o : Observer Assignment (nullable (list Planet.t))) xs :
  components w !! this = Some (PlanetComponentInstance c) →
  PlanetComponent.ngOnInit this w
  = mkWorld (subjects w)
      (<[this := PlanetComponentInstance
                   (PlanetFields.mk (PlanetFields.destroy' c)
                      (Some PlanetRepositoryService.getAllPlanets))]>
         (components w))
      (subscriptions w) (destroyed w) (unhandled w)
  ∧ ∀ c' planets,
      components (PlanetComponent.ngOnInit this w) !! this
      = Some (PlanetComponentInstance c') →
      PlanetFields.planets' c' = Some planets →
      planets = PlanetRepositoryService.getAllPlanets
      ∧ Forall (fun v => loose_ne_null v = true)
          (received (Subscriber_run (operators planets) o xs).1.1).
Proof.
  intros Hc.
  assert (PlanetComponent.ngOnInit this w
          = mkWorld (subjects w)
              (<[this := PlanetComponentInstance
                           (PlanetFields.mk (PlanetFields.destroy' c)
                              (Some PlanetRepositoryService.getAllPlanets))]>
                 (components w))
              (subscriptions w) (destroyed w) (unhandled w)) as ->.
  { unfold PlanetComponent.ngOnInit. rewrite Hc. reflexivity. }
  split; [done|]. intros c' planets. cbn. rewrite lookup_insert_eq.
  intros Hc' Hp.
  assert (planets = PlanetRepositoryService.getAllPlanets) as ->.
  { injection Hc' as <-. cbn in Hp. congruence. }
  split; [done|]. apply (filtered_run_received loose_ne_null o xs).
Qed.

Lemma planets_observable_delivers_values_witness :
  let w := run empty_world [CreatePlanetComponent] in
  let xs := [FromSource (Next (mkResult JsUndefined));
             FromSource (Next (mkResult (JsValue [earth])))] in
  PlanetComponent.ngOnInit 0 w
  = mkWorld (subjects w)
      (<[0 := PlanetComponentInstance
                (PlanetFields.mk 0 (Some PlanetRepositoryService.getAllPlanets))]>
         (components w))
      (subscriptions w) (destroyed w) (unhandled w)
  ∧ ∀ c' planets,
      components (PlanetComponent.ngOnInit 0 w) !! 0
      = Some (PlanetComponentInstance c') →
      PlanetFields.planets' c' = Some planets →
      planets = PlanetRepositoryService.getAllPlanets
      ∧ Forall (fun v => loose_ne_null v = true)
          (received (Subscriber_run (operators planets) bare xs).1.1).
Proof.
  apply (planets_observable_delivers_values
           (run empty_world [CreatePlanetComponent]) 0 (PlanetFields.mk 0 None)
           bare
           [FromSource (Next (mkResult JsUndefined));
            FromSource (Next (mkResult (JsValue [earth])))]).
  vm_compute. reflexivity.
Defined.

(** X13.  With the HttpClient version of [getAllPlanets] nothing is
    filtered: every list its source emits while the chain of ngOnInit is
    open, an empty one included, is assigned to [planets] by the tap and
    handed to the observer.  Once [destroy$] has emitted the chain is
    closed, and whatever follows changes nothing. *)
Theorem http_chain_assigns_until_destroyed d
    (o : Observer Assignment (list Planet.t)) s v xs ys :
  (∃ ss,
     Subscriber_push (getAllPlanets_http_chain d) o s (Next v)
     = if closed s then (s, [], [])
       else (mkSubscriber false ss (received s ++ [v]),
             assign_planets (JsValue v)
               :: match next o with Some f => [f v] | None => [] end,
             []))
  ∧ closed (Subscriber_run (getAllPlanets_http_chain d) o
              (xs ++ [FromSubject d])).1.1 = true
  ∧ Subscriber_run (getAllPlanets_http_chain d) o (xs ++ FromSubject d :: ys)
    = Subscriber_run (getAllPlanets_http_chain d) o (xs ++ [FromSubject d]).
Proof.
  split.
  - unfold Subscriber_push. destruct (closed s); [by exists []|].
    cbn. rewrite app_nil_r. by eexists.
  - apply takeUntil_guards. cbn. by apply list_elem_of_singleton.
Qed.

(** [getHero] never returns null; it asks for the endpoint followed
    by a slash and the name, through no operator, so two names give the
    same request only if they are the same name. *)
Theorem getHero_request_names_hero {Effect : Type} (a b : string) :
  HeroRepositoryService.getHero (Effect := Effect) (JsValue a)
  = Some (mkObservable
            (HttpGet ("https://somefictiousendpoint.com/heros/" +:+ a))
            pipe_end)
  ∧ (HeroRepositoryService.getHero (Effect := Effect) (JsValue a)
     = HeroRepositoryService.getHero (JsValue b) ↔ a = b).
Proof.
  split; [reflexivity|]. split; [|by intros ->].
  unfold HeroRepositoryService.getHero. intros H. by simplify_eq.
Qed.

(** * Errors of the mutation, in every reachable world *)

(** C7.  When the source of a mutation emits an error, the component does
    not handle it.  The chain [addPlanet] subscribed has an observer with
    no [next] and no [error] handler, so no callback of a component runs:
    every component is left as it was, the chain closes having delivered
    nothing more, and the error is added to RxJS's report of unhandled
    errors. *)
Theorem mutation_error_goes_unhandled w sid s err :
  reachable w →
  subscriptions w !! sid = Some (MutationSubscription s) →
  closed (state s) = false →
  let w' := step w (MutationEmits sid (Error err)) in
  (next (observer s) = None ∧ error (observer s) = None)
  ∧ unhandled w' = unhandled w ++ [err]
  ∧ components w' = components w
  ∧ ∃ ss, subscriptions w' !! sid
          = Some (MutationSubscription
                    (with_state s (mkSubscriber true ss (received (state s))))).
Proof.
  intros Hw Hs Hopen w'. pose proof (reachable_wf w Hw) as Hwf.
  destruct (wf_owner w Hwf sid _ Hs) as (Hbare & _). cbn in Hbare.
  destruct (push_ending MutationSubscription s (Fails err) sid w)
    as [ss Hpush]; try done.
  assert (w' = mkWorld (Subject.remove sid <$> subjects w) (components w)
                 (<[sid := MutationSubscription
                             (with_state s
                                (mkSubscriber true ss (received (state s))))]>
                    (subscriptions w))
                 (destroyed w) (unhandled w ++ [err])) as ->.
  { unfold w'. cbn. unfold push_mutation. rewrite Hs. exact Hpush. }
  cbn. split_and!; [by rewrite Hbare..|done|done|].
  exists ss. by rewrite lookup_insert_eq.
Qed.

Lemma mutation_error_goes_unhandled_witness :
  let w := run empty_world
             [CreatePlanetComponent; ClickAddPlanet 0; ClickAddPlanet 0] in
  let s := mkSubscribed 0 (addPlanet_chain 0) (@bare Assignment _)
             (mkSubscriber false [0; 0; 0; 0] []) in
  let w' := step w (MutationEmits 1 (Error "timeout")) in
  (next (observer s) = None ∧ error (observer s) = None)
  ∧ unhandled w' = unhandled w ++ ["timeout"]
  ∧ components w' = components w
  ∧ ∃ ss, subscriptions w' !! 1
          = Some (MutationSubscription
                    (with_state s (mkSubscriber true ss (received (state s))))).
Proof.
  apply (mutation_error_goes_unhandled
           (run empty_world
              [CreatePlanetComponent; ClickAddPlanet 0; ClickAddPlanet 0])
           1
           (mkSubscribed 0 (addPlanet_chain 0) bare
              (mkSubscriber false [0; 0; 0; 0] []))
           "timeout").
  - by eexists.
  - vm_compute. reflexivity.
  - reflexivity.
Defined.
